(** * An expiring key/value cache (package [cache], file [mycache.go])

    A shallow embedding of the Go code and the properties of its
    operations.  The embedding follows the source function by function:

    - Go's fixed-width integers are [Z] with the wrap-around written out;
      [float32] and [float64] are IEEE 754 binary32 and binary64 values of
      the Standard Library's [SpecFloat];
    - a Go map is a reference: the heap holds the maps, a map value is an
      optional location ([None] is the nil map), [make] allocates;
    - [sync.RWMutex] is its state (writer flag, reader count); a [Lock]
      that can never be granted, an unlock of an unlocked mutex (a fatal
      runtime error) and a panic are outcomes of their own;
    - the eviction callback is an opaque function value; the world keeps
      one trace of the lock operations that were granted and of the calls
      of the callback, in the order they happened;
    - every operation receives the reading [now] of [time.Now().UnixNano()]
      for its call; one call sees one reading.
    The model is sequential: one goroutine runs one operation at a time,
    and the janitor's ticks are calls of [DeleteExpired] like any other.
    [Save] is not part of it. *)

From Stdlib Require Import ZArith String SpecFloat Lia.
From stdpp Require Import gmap strings list fin_maps.

Local Open Scope Z_scope.

(** ** Machine integers *)

(** [uint] has 32 or 64 bits, by the target ([bits.UintSize]); [int] and
    [uintptr] have the same width. *)
Inductive GOARCH : Type := Arch32 | Arch64.

Definition UintSize (a : GOARCH) : Z :=
  match a with Arch32 => 32 | Arch64 => 64 end.

(** Conversion to an unsigned type of [w] bits keeps the low [w] bits. *)
Definition wrapU (w z : Z) : Z := z mod 2 ^ w.

(** Conversion to a signed type of [w] bits: two's complement. *)
Definition wrapS (w z : Z) : Z := (z + 2 ^ (w - 1)) mod 2 ^ w - 2 ^ (w - 1).

(** ** Floating point: binary32 and binary64 *)

Definition f32_of_int (n : Z) : spec_float := binary_normalize 24 128 n 0 false.
Definition f64_of_int (n : Z) : spec_float := binary_normalize 53 1024 n 0 false.
Definition f32_add : spec_float -> spec_float -> spec_float := SFadd 24 128.
Definition f32_sub : spec_float -> spec_float -> spec_float := SFsub 24 128.
Definition f64_add : spec_float -> spec_float -> spec_float := SFadd 53 1024.
Definition f64_sub : spec_float -> spec_float -> spec_float := SFsub 53 1024.

(** ** Values of type [interface{}] *)

Inductive value : Type :=
| VNil
| VInt (n : Z) | VInt8 (n : Z) | VInt16 (n : Z) | VInt32 (n : Z) | VInt64 (n : Z)
| VUint (n : Z) | VUintptr (n : Z)
| VUint8 (n : Z) | VUint16 (n : Z) | VUint32 (n : Z) | VUint64 (n : Z)
| VFloat32 (f : spec_float) | VFloat64 (f : spec_float)
| VString (s : string)
| VBool (b : bool).

(** ** [Item] *)

Record Item : Type := mkItem { Object : value; Expiration : Z }.

Definition Expired (now : Z) (item : Item) : bool :=
  if Expiration item =? 0 then false
  else now >? Expiration item.

Definition NoExpiration : Z := -1.
Definition DefaultExpiration : Z := 0.

(** ** The store *)

(** A location of the heap of maps; a map value ([None] is nil); a function
    value, by its identity. *)
Abbreviation loc := nat (only parsing).
Abbreviation mapref := (option nat) (only parsing).
Abbreviation callback := nat (only parsing).

Record RWMutex : Type := mkMu { writer : bool; readers : nat }.

Definition unlocked : RWMutex := mkMu false 0.

Record cache : Type := mkCache {
  defaultExpiration : Z;
  items : mapref;
  mu : RWMutex;
  onEvicted : option callback
}.

(** What the trace records: a lock operation that was granted, or a call
    of the eviction callback [f] with its two arguments. *)
Inductive event : Type :=
| Acquire | Release | RAcquire | RRelease
| Call (f : callback) (key : string) (v : value).

Record world : Type := mkWorld {
  heap : list (gmap string Item);
  self : cache;
  trace : list event
}.

Inductive result (A : Type) : Type :=
| Returns (a : A) (w : world)
| Blocks (w : world)
| Fatal (msg : string) (w : world)
| Panics (msg : string) (w : world).

Arguments Returns {A} a w.
Arguments Blocks {A} w.
Arguments Fatal {A} msg w.
Arguments Panics {A} msg w.

Definition M (A : Type) : Type := world -> result A.

Definition ret {A : Type} (a : A) : M A := fun w => Returns a w.

Definition bind {A B : Type} (m : M A) (k : A -> M B) : M B :=
  fun w =>
    match m w with
    | Returns a w' => k a w'
    | Blocks w' => Blocks w'
    | Fatal msg w' => Fatal msg w'
    | Panics msg w' => Panics msg w'
    end.

Declare Scope go_scope.
Delimit Scope go_scope with go.
Notation "x <- m ;; k" := (bind m (fun x => k))
  (at level 100, m at next level, k at level 200, right associativity) : go_scope.
Notation "m ;; k" := (bind m (fun _ => k))
  (at level 100, k at level 200, right associativity) : go_scope.
Local Open Scope go_scope.

(** A deferred call runs when the function returns, and also when it
    panics; it does not run after a fatal error or in a goroutine that is
    blocked for ever. *)
Definition defer {A : Type} (d : M unit) (body : M A) : M A :=
  fun w =>
    match body w with
    | Returns a w' =>
        match d w' with
        | Returns _ w'' => Returns a w''
        | Blocks w'' => Blocks w''
        | Fatal msg w'' => Fatal msg w''
        | Panics msg w'' => Panics msg w''
        end
    | Panics msg w' =>
        match d w' with
        | Returns _ w'' => Panics msg w''
        | Blocks w'' => Blocks w''
        | Fatal msg' w'' => Fatal msg' w''
        | Panics msg' w'' => Panics msg' w''
        end
    | Blocks w' => Blocks w'
    | Fatal msg w' => Fatal msg w'
    end.

(** *** The fields of [c] *)

Definition getSelf : M cache := fun w => Returns (self w) w.

Definition set_mu (m : RWMutex) (w : world) : world :=
  mkWorld (heap w)
    (mkCache (defaultExpiration (self w)) (items (self w)) m (onEvicted (self w)))
    (trace w).

Definition set_items (r : mapref) (w : world) : world :=
  mkWorld (heap w)
    (mkCache (defaultExpiration (self w)) r (mu (self w)) (onEvicted (self w)))
    (trace w).

Definition set_onEvicted (f : option callback) (w : world) : world :=
  mkWorld (heap w)
    (mkCache (defaultExpiration (self w)) (items (self w)) (mu (self w)) f)
    (trace w).

Definition set_heap (h : list (gmap string Item)) (w : world) : world :=
  mkWorld h (self w) (trace w).

(** The world with the events [es] added to the trace. *)
Definition logged (es : list event) (w : world) : world :=
  mkWorld (heap w) (self w) (trace w ++ es).

(** [c.items = m] and [c.onEvicted = f] *)
Definition assignItems (m : mapref) : M unit := fun w => Returns tt (set_items m w).
Definition assignOnEvicted (f : option callback) : M unit := fun w =>
  Returns tt (set_onEvicted f w).

(** *** [sync.RWMutex] *)

Definition Lock : M unit := fun w =>
  let m := mu (self w) in
  if writer m || negb (Nat.eqb (readers m) 0) then Blocks w
  else Returns tt (logged [Acquire] (set_mu (mkMu true (readers m)) w)).

Definition Unlock : M unit := fun w =>
  let m := mu (self w) in
  if writer m then Returns tt (logged [Release] (set_mu (mkMu false (readers m)) w))
  else Fatal "sync: Unlock of unlocked RWMutex" w.

Definition RLock : M unit := fun w =>
  let m := mu (self w) in
  if writer m then Blocks w
  else Returns tt (logged [RAcquire] (set_mu (mkMu false (S (readers m))) w)).

Definition RUnlock : M unit := fun w =>
  let m := mu (self w) in
  match readers m with
  | O => Fatal "sync: RUnlock of unlocked RWMutex" w
  | S n => Returns tt (logged [RRelease] (set_mu (mkMu (writer m) n) w))
  end.

(** *** Go maps *)

(** The entries of the map [r] refers to; a nil map reads as empty. *)
Definition deref (h : list (gmap string Item)) (r : mapref) : gmap string Item :=
  match r with
  | Some l => default ∅ (h !! l)
  | None => ∅
  end.

(** [make(map[string]Item)] *)
Definition make : M mapref := fun w =>
  Returns (Some (length (heap w))) (set_heap (heap w ++ [∅]) w).

(** [m[key]] with the comma-ok form. *)
Definition mapLookup (r : mapref) (key : string) : M (option Item) := fun w =>
  Returns (deref (heap w) r !! key) w.

(** [m[key] = item] *)
Definition mapStore (r : mapref) (key : string) (item : Item) : M unit := fun w =>
  match r with
  | Some l =>
      match heap w !! l with
      | Some m => Returns tt (set_heap (<[l := <[key := item]> m]> (heap w)) w)
      | None => Panics "assignment to entry in nil map" w
      end
  | None => Panics "assignment to entry in nil map" w
  end.

(** [delete(m, key)]: no effect on a nil map. *)
Definition mapDelete (r : mapref) (key : string) : M unit := fun w =>
  match r with
  | Some l =>
      match heap w !! l with
      | Some m => Returns tt (set_heap (<[l := base.delete key m]> (heap w)) w)
      | None => Returns tt w
      end
  | None => Returns tt w
  end.

(** The entries a [range] loop over the map meets, in the order it meets
    them (Go does not fix the order; the properties below do not depend on
    it). *)
Definition mapRange (r : mapref) : M (list (string * Item)) := fun w =>
  Returns (map_to_list (deref (heap w) r)) w.

(** [len(m)] *)
Definition mapLen (r : mapref) : M nat := fun w =>
  Returns (size (deref (heap w) r)) w.

(** *** Time *)

(** [time.Now().Add(d).UnixNano()] for the clock reading [now]: the sum in
    [int64] arithmetic. *)
Definition UnixNanoAfter (now d : Z) : Z := wrapS 64 (now + d).

(** *** Errors: the messages of [fmt.Errorf]; [None] is the nil error *)

Definition error : Type := option string.

Definition errAlreadyExists (key : string) : string := "item " +:+ key +:+ " already exists".
Definition errDoNotExists (key : string) : string := "item " +:+ key +:+ " do not exists".
Definition errNotFound (key : string) : string := "item " +:+ key +:+ " not found".
Definition errNotNumeric (key : string) : string := "item " +:+ key +:+ " is not numeric".
Definition errNotInteger (key : string) : string :=
  "The value for " +:+ key +:+ " is not an integer".

(** ** The operations of [*cache] *)

(** [Set] ([Set] is a reserved word here, hence the underscore).  The
    clock is read and the expiration computed before the lock is taken. *)
Definition Set_ (key : string) (val : value) (d : Z) (now : Z) : M unit :=
  c <- getSelf ;;
  let d := if d =? DefaultExpiration then defaultExpiration c else d in
  let e := if d >? 0 then UnixNanoAfter now d else 0 in
  Lock ;;
  c <- getSelf ;;
  mapStore (items c) key (mkItem val e) ;;
  Unlock.

(** The same with no lock operation. *)
Definition set (key : string) (val : value) (d : Z) (now : Z) : M unit :=
  c <- getSelf ;;
  let d := if d =? DefaultExpiration then defaultExpiration c else d in
  let e := if d >? 0 then UnixNanoAfter now d else 0 in
  mapStore (items c) key (mkItem val e).

Definition SetDefault (key : string) (val : value) (now : Z) : M unit :=
  Set_ key val DefaultExpiration now.

Definition get (key : string) (now : Z) : M (value * bool) :=
  c <- getSelf ;;
  o <- mapLookup (items c) key ;;
  match o with
  | None => ret (VNil, false)
  | Some item =>
      if Expiration item >? 0 then
        if now >? Expiration item then ret (VNil, false)
        else ret (Object item, true)
      else ret (Object item, true)
  end.

Definition Add (key : string) (val : value) (d : Z) (now : Z) : M error :=
  Lock ;;
  r <- get key now ;;
  if snd r then
    Unlock ;;
    ret (Some (errAlreadyExists key))
  else
    set key val d now ;;
    Unlock ;;
    ret None.

Definition Replace (key : string) (val : value) (d : Z) (now : Z) : M error :=
  Lock ;;
  r <- get key now ;;
  if negb (snd r) then
    Unlock ;;
    ret (Some (errDoNotExists key))
  else
    set key val d now ;;
    Unlock ;;
    ret None.

Definition Get (key : string) (now : Z) : M (value * bool) :=
  RLock ;;
  c <- getSelf ;;
  o <- mapLookup (items c) key ;;
  match o with
  | None => RUnlock ;; ret (VNil, false)
  | Some item =>
      if Expired now item then RUnlock ;; ret (VNil, false)
      else RUnlock ;; ret (Object item, true)
  end.

(** The type switch of [Increment]: the sum in the dynamic type of the
    stored value, [None] in the default case. *)
Definition increment (a : GOARCH) (v : value) (n : Z) : option value :=
  match v with
  | VInt x => Some (VInt (wrapS (UintSize a) (x + wrapS (UintSize a) n)))
  | VInt8 x => Some (VInt8 (wrapS 8 (x + wrapS 8 n)))
  | VInt16 x => Some (VInt16 (wrapS 16 (x + wrapS 16 n)))
  | VInt32 x => Some (VInt32 (wrapS 32 (x + wrapS 32 n)))
  | VInt64 x => Some (VInt64 (wrapS 64 (x + n)))
  | VUint x => Some (VUint (wrapU (UintSize a) (x + wrapU (UintSize a) n)))
  | VUintptr x => Some (VUintptr (wrapU (UintSize a) (x + wrapU (UintSize a) n)))
  | VUint8 x => Some (VUint8 (wrapU 8 (x + wrapU 8 n)))
  | VUint16 x => Some (VUint16 (wrapU 16 (x + wrapU 16 n)))
  | VUint32 x => Some (VUint32 (wrapU 32 (x + wrapU 32 n)))
  | VUint64 x => Some (VUint64 (wrapU 64 (x + wrapU 64 n)))
  | VFloat32 x => Some (VFloat32 (f32_add x (f32_of_int n)))
  | VFloat64 x => Some (VFloat64 (f64_add x (f64_of_int n)))
  | _ => None
  end.

(** The type switch of [Decrement]. *)
Definition decrement (a : GOARCH) (v : value) (n : Z) : option value :=
  match v with
  | VInt x => Some (VInt (wrapS (UintSize a) (x - wrapS (UintSize a) n)))
  | VInt8 x => Some (VInt8 (wrapS 8 (x - wrapS 8 n)))
  | VInt16 x => Some (VInt16 (wrapS 16 (x - wrapS 16 n)))
  | VInt32 x => Some (VInt32 (wrapS 32 (x - wrapS 32 n)))
  | VInt64 x => Some (VInt64 (wrapS 64 (x - n)))
  | VUint x => Some (VUint (wrapU (UintSize a) (x - wrapU (UintSize a) n)))
  | VUintptr x => Some (VUintptr (wrapU (UintSize a) (x - wrapU (UintSize a) n)))
  | VUint8 x => Some (VUint8 (wrapU 8 (x - wrapU 8 n)))
  | VUint16 x => Some (VUint16 (wrapU 16 (x - wrapU 16 n)))
  | VUint32 x => Some (VUint32 (wrapU 32 (x - wrapU 32 n)))
  | VUint64 x => Some (VUint64 (wrapU 64 (x - wrapU 64 n)))
  | VFloat32 x => Some (VFloat32 (f32_sub x (f32_of_int n)))
  | VFloat64 x => Some (VFloat64 (f64_sub x (f64_of_int n)))
  | _ => None
  end.

(** [Increment]: the two failing returns leave without [c.mu.Unlock()]. *)
Definition Increment (a : GOARCH) (key : string) (n : Z) (now : Z) : M error :=
  Lock ;;
  c <- getSelf ;;
  o <- mapLookup (items c) key ;;
  match o with
  | None => ret (Some (errNotFound key))
  | Some item =>
      if Expired now item then ret (Some (errNotFound key))
      else
        match increment a (Object item) n with
        | None => ret (Some (errNotNumeric key))
        | Some v =>
            c <- getSelf ;;
            mapStore (items c) key (mkItem v (Expiration item)) ;;
            Unlock ;;
            ret None
        end
  end.

Definition Decrement (a : GOARCH) (key : string) (n : Z) (now : Z) : M error :=
  Lock ;;
  c <- getSelf ;;
  o <- mapLookup (items c) key ;;
  match o with
  | None => Unlock ;; ret (Some (errNotFound key))
  | Some item =>
      if Expired now item then Unlock ;; ret (Some (errNotFound key))
      else
        match decrement a (Object item) n with
        | None => Unlock ;; ret (Some (errNotInteger key))
        | Some v =>
            c <- getSelf ;;
            mapStore (items c) key (mkItem v (Expiration item)) ;;
            Unlock ;;
            ret None
        end
  end.

(** [c.onEvicted(key, v)]: the call of a nil function panics. *)
Definition callOnEvicted (key : string) (v : value) : M unit := fun w =>
  match onEvicted (self w) with
  | Some f => Returns tt (logged [Call f key v] w)
  | None => Panics "invalid memory address or nil pointer dereference" w
  end.

Definition delete (key : string) : M (value * bool) :=
  c <- getSelf ;;
  match onEvicted c with
  | Some _ =>
      o <- mapLookup (items c) key ;;
      match o with
      | Some item =>
          mapDelete (items c) key ;;
          ret (Object item, true)
      | None =>
          mapDelete (items c) key ;;
          ret (VNil, false)
      end
  | None =>
      mapDelete (items c) key ;;
      ret (VNil, false)
  end.

Definition Delete (key : string) : M unit :=
  Lock ;;
  r <- delete key ;;
  Unlock ;;
  if snd r then callOnEvicted key (fst r) else ret tt.

(** The body of the [range] loop of [DeleteExpired] over the entries the
    loop produces.  The loop removes no entry but the one it stands on, so
    it produces every entry of the map once, in an order Go does not fix;
    [entries] is that sequence. *)
Fixpoint sweep (now : Z) (entries : list (string * Item))
    (evictedItems : list (string * value)) : M (list (string * value)) :=
  match entries with
  | [] => ret evictedItems
  | (key, item) :: rest =>
      if Expired now item then
        r <- delete key ;;
        if snd r then sweep now rest (evictedItems ++ [(key, fst r)])
        else sweep now rest evictedItems
      else sweep now rest evictedItems
  end.

Fixpoint callAll (evictedItems : list (string * value)) : M unit :=
  match evictedItems with
  | [] => ret tt
  | (key, v) :: rest => callOnEvicted key v ;; callAll rest
  end.

(** [DeleteExpired]: [defer c.mu.Unlock()] and, before the callbacks, a
    second [c.mu.Unlock()]. *)
Definition DeleteExpired (now : Z) : M unit :=
  Lock ;;
  defer Unlock (
    c <- getSelf ;;
    es <- mapRange (items c) ;;
    evictedItems <- sweep now es [] ;;
    Unlock ;;
    callAll evictedItems).

Definition OnEvicted (f : option callback) : M unit :=
  Lock ;;
  assignOnEvicted f ;;
  Unlock.

(** The [range] loop of [Items]: it copies the entries that are not
    expired into [m]. *)
Fixpoint copyLive (now : Z) (entries : list (string * Item)) (m : mapref) : M unit :=
  match entries with
  | [] => ret tt
  | (k, item) :: rest =>
      if negb (Expired now item) then mapStore m k item ;; copyLive now rest m
      else copyLive now rest m
  end.

Definition Items (now : Z) : M mapref :=
  RLock ;;
  defer RUnlock (
    m <- make ;;
    c <- getSelf ;;
    es <- mapRange (items c) ;;
    copyLive now es m ;;
    ret m).

Definition ItemCount : M nat :=
  RLock ;;
  defer RUnlock (
    c <- getSelf ;;
    mapLen (items c)).

Definition Flush : M unit :=
  Lock ;;
  defer Unlock (
    m <- make ;;
    assignItems m).

(** ** Construction *)

Definition newCache (d : Z) (m : mapref) : cache :=
  let d := if d =? 0 then -1 else d in
  mkCache d m unlocked None.

(** [NewFrom]: the store works on the caller's map [items], in the
    caller's heap.  The janitor goroutine, started for a positive
    [interval], calls [DeleteExpired] on every tick; a sequential run
    places those calls itself. *)
Definition NewFrom (defaultExpiration interval : Z)
    (h : list (gmap string Item)) (items : mapref) : world :=
  mkWorld h (newCache defaultExpiration items) [].

(** [NewCache]: on a map of its own. *)
Definition NewCache (defaultExpiration interval : Z) : world :=
  NewFrom defaultExpiration interval [∅] (Some 0%nat).

(** ** The rest of the file *)

(** A [time.Time] as [GetWithExpiration] returns it: the zero value
    [time.Time{}] or [time.Unix(0, nsec)]. *)
Inductive Time : Type :=
| ZeroTime
| Unix (nsec : Z).

Definition GetWithExpiration (key : string) (now : Z) : M (value * Time * bool) :=
  RLock ;;
  c <- getSelf ;;
  o <- mapLookup (items c) key ;;
  match o with
  | None => RUnlock ;; ret (VNil, ZeroTime, false)
  | Some item =>
      if Expiration item >? 0 then
        if now >? Expiration item then RUnlock ;; ret (VNil, ZeroTime, false)
        else RUnlock ;; ret (Object item, Unix (Expiration item), true)
      else RUnlock ;; ret (Object item, ZeroTime, true)
  end.



(** ** Reading an outcome *)

(** The world an operation leaves behind, however it ends. *)
Definition final {A : Type} (r : result A) : world :=
  match r with
  | Returns _ w => w
  | Blocks w => w
  | Fatal _ w => w
  | Panics _ w => w
  end.

(** The entries of the store's own map. *)
Definition entries (w : world) : gmap string Item :=
  deref (heap w) (items (self w)).

(** The store's map exists: [c.items] is not nil. *)
Definition allocated (w : world) : Prop :=
  exists l m, items (self w) = Some l /\ heap w !! l = Some m.

(** [c.items] is nil or refers to a map of the heap. *)
Definition wellformed (w : world) : Prop :=
  match items (self w) with
  | Some l => (l < length (heap w))%nat
  | None => True
  end.

(** The calls of the callback in a trace, in order. *)
Definition calls (t : list event) : list (nat * string * value) :=
  omap (fun e => match e with Call f key v => Some (f, key, v) | _ => None end) t.

Definition live (now : Z) (kv : string * Item) : Prop := Expired now kv.2 = false.

#[global] Instance live_dec (now : Z) (kv : string * Item) : Decision (live now kv).
Proof. unfold live. apply _. Defined.

(** What [Get] answers for the entry [o] of the key. *)
Definition answer (now : Z) (o : option Item) : value * bool :=
  match o with
  | Some item => if Expired now item then (VNil, false) else (Object item, true)
  | None => (VNil, false)
  end.

(** The expiration [Set] and [set] store for the duration [d]. *)
Definition expiration (c : cache) (d now : Z) : Z :=
  let d := if d =? DefaultExpiration then defaultExpiration c else d in
  if d >? 0 then UnixNanoAfter now d else 0.

(** The test of [get], which [Add] and [Replace] rely on: the entry has a
    positive expiration and the clock is past it. *)
Definition stale (now : Z) (item : Item) : bool :=
  (Expiration item >? 0) && (now >? Expiration item).

(** [get] finds the key: it has an entry that is not stale. *)
Definition found (now : Z) (o : option Item) : bool :=
  match o with
  | Some item => negb (stale now item)
  | None => false
  end.

(** What a caller may do to a map it holds: store and delete entries. *)
Inductive mutation : Type :=
| Store (key : string) (item : Item)
| Remove (key : string).

Fixpoint mutate (r : mapref) (ms : list mutation) : M unit :=
  match ms with
  | [] => ret tt
  | Store key item :: rest => mapStore r key item ;; mutate r rest
  | Remove key :: rest => mapDelete r key ;; mutate r rest
  end.

(** The map the loop of [Items] builds from [acc] over [es]. *)
Definition copied (now : Z) (es : list (string * Item)) (acc : gmap string Item) :
    gmap string Item :=
  foldl (fun acc kv => if negb (Expired now kv.2) then <[kv.1 := kv.2]> acc else acc)
    acc es.

(** The keys and values of the entries of [es] that are expired, in the
    order of [es]: what a sweep over [es] reclaims. *)
Fixpoint reclaimed (now : Z) (es : list (string * Item)) : list (string * value) :=
  match es with
  | [] => []
  | (key, item) :: rest =>
      if Expired now item then (key, Object item) :: reclaimed now rest
      else reclaimed now rest
  end.

(** An operation that never calls the callback, however it ends. *)
Definition silent {A : Type} (m : M A) : Prop :=
  forall w, calls (trace (final (m w))) = calls (trace w).

(** An operation that leaves every map of the heap as it is when it
    returns an error. *)
Definition harmless (m : M error) : Prop :=
  forall w e w', m w = Returns (Some e) w' ->
    heap w' = heap w /\ items (self w') = items (self w).

(** The world in which the write lock was taken and not released. *)
Definition holding (w : world) : world :=
  logged [Acquire] (set_mu (mkMu true 0) w).



(** ** Histories *)

(** A call of an operation of the store. *)
Inductive op : Type :=
| OpSet (key : string) (val : value) (d : Z)
| OpSetDefault (key : string) (val : value)
| OpAdd (key : string) (val : value) (d : Z)
| OpReplace (key : string) (val : value) (d : Z)
| OpGet (key : string)
| OpIncrement (key : string) (n : Z)
| OpDecrement (key : string) (n : Z)
| OpDelete (key : string)
| OpDeleteExpired
| OpOnEvicted (f : option callback)
| OpItems
| OpItemCount
| OpFlush.

(** The key a call writes: [Set], [SetDefault], [Add] and [Replace] are
    the operations that can give a key an entry. *)
Definition written (o : op) : option string :=
  match o with
  | OpSet key _ _ | OpSetDefault key _ | OpAdd key _ _ | OpReplace key _ _ => Some key
  | _ => None
  end.

(** The world after the call [o] at the clock reading [now]. *)
Definition perform (a : GOARCH) (o : op) (now : Z) (w : world) : world :=
  match o with
  | OpSet key val d => final (Set_ key val d now w)
  | OpSetDefault key val => final (SetDefault key val now w)
  | OpAdd key val d => final (Add key val d now w)
  | OpReplace key val d => final (Replace key val d now w)
  | OpGet key => final (Get key now w)
  | OpIncrement key n => final (Increment a key n now w)
  | OpDecrement key n => final (Decrement a key n now w)
  | OpDelete key => final (Delete key w)
  | OpDeleteExpired => final (DeleteExpired now w)
  | OpOnEvicted f => final (OnEvicted f w)
  | OpItems => final (Items now w)
  | OpItemCount => final (ItemCount w)
  | OpFlush => final (Flush w)
  end.

(** The world after a sequence of calls, each with its clock reading.  A
    history goes on from the world a call leaves, also where the call did
    not return (the next call is then another caller's). *)
Fixpoint history (a : GOARCH) (ops : list (op * Z)) (w : world) : world :=
  match ops with
  | [] => w
  | (o, now) :: rest => history a rest (perform a o now w)
  end.

(** An operation that gives [key] no entry, however it ends. *)
Definition keeps {A : Type} (key : string) (m : M A) : Prop :=
  forall w,
    entries w !! key = None -> wellformed w ->
    entries (final (m w)) !! key = None /\ wellformed (final (m w)).

(** ** Numeric kinds, as the specification speaks of them *)

Inductive kind : Type :=
| KInt | KInt8 | KInt16 | KInt32 | KInt64
| KUint | KUintptr | KUint8 | KUint16 | KUint32 | KUint64
| KFloat32 | KFloat64.

(** The numeric kind of a value; [None] for a value that is not numeric. *)
Definition kindOf (v : value) : option kind :=
  match v with
  | VInt _ => Some KInt | VInt8 _ => Some KInt8 | VInt16 _ => Some KInt16
  | VInt32 _ => Some KInt32 | VInt64 _ => Some KInt64
  | VUint _ => Some KUint | VUintptr _ => Some KUintptr
  | VUint8 _ => Some KUint8 | VUint16 _ => Some KUint16
  | VUint32 _ => Some KUint32 | VUint64 _ => Some KUint64
  | VFloat32 _ => Some KFloat32 | VFloat64 _ => Some KFloat64
  | VNil | VString _ | VBool _ => None
  end.

(** The payload of a value of an integer kind, and of a floating kind. *)
Definition integer (v : value) : option Z :=
  match v with
  | VInt x | VInt8 x | VInt16 x | VInt32 x | VInt64 x
  | VUint x | VUintptr x | VUint8 x | VUint16 x | VUint32 x | VUint64 x => Some x
  | _ => None
  end.

Definition float (v : value) : option spec_float :=
  match v with
  | VFloat32 f | VFloat64 f => Some f
  | _ => None
  end.

Definition signed (k : kind) : bool :=
  match k with
  | KInt | KInt8 | KInt16 | KInt32 | KInt64 => true
  | _ => false
  end.

(** The width of a kind in bits. *)
Definition bits (a : GOARCH) (k : kind) : Z :=
  match k with
  | KInt | KUint | KUintptr => UintSize a
  | KInt8 | KUint8 => 8
  | KInt16 | KUint16 => 16
  | KInt32 | KUint32 | KFloat32 => 32
  | KInt64 | KUint64 | KFloat64 => 64
  end.

(** Conversion of an integer to an integer kind: fixed-width wrap-around. *)
Definition wrap (a : GOARCH) (k : kind) (z : Z) : Z :=
  if signed k then wrapS (bits a k) z else wrapU (bits a k) z.

(** The least and the greatest value of an integer kind. *)
Definition lo (a : GOARCH) (k : kind) : Z :=
  if signed k then - 2 ^ (bits a k - 1) else 0.

Definition hi (a : GOARCH) (k : kind) : Z :=
  if signed k then 2 ^ (bits a k - 1) - 1 else 2 ^ bits a k - 1.

(** The format of a floating kind: precision and exponent bound. *)
Definition prec (k : kind) : Z := match k with KFloat32 => 24 | _ => 53 end.
Definition emax (k : kind) : Z := match k with KFloat32 => 128 | _ => 1024 end.

(** Conversion of an integer to a floating kind, and the sum and the
    difference in that kind. *)
Definition fconv (k : kind) (n : Z) : spec_float :=
  binary_normalize (prec k) (emax k) n 0 false.
Definition fadd (k : kind) : spec_float -> spec_float -> spec_float :=
  SFadd (prec k) (emax k).
Definition fsub (k : kind) : spec_float -> spec_float -> spec_float :=
  SFsub (prec k) (emax k).

(** A value of an integer kind as Go can hold it: the payload lies in the
    range of the kind. *)
Definition representable (a : GOARCH) (v : value) : Prop :=
  exists k x, kindOf v = Some k /\ integer v = Some x /\ lo a k <= x <= hi a k.

(** ** Stores for the examples *)

(** One entry, which expires at time 5, and a callback. *)
Definition sample : world :=
  mkWorld [{["a" := mkItem (VInt 1) 5]}]
    (mkCache (-1) (Some 0%nat) unlocked (Some 7%nat)) [].

(** A store made by [NewFrom] from a map whose entry has the expiration
    [-1]. *)
Definition legacy : world :=
  NewFrom 0 0 [{["k" := mkItem (VInt 1) (-1)]}] (Some 0%nat).

(** An [int8] counter at its greatest value and a string, both without
    expiration. *)
Definition counters : world :=
  NewFrom 0 0 [{["n" := mkItem (VInt8 127) 0; "s" := mkItem (VString "x") 0]}]
    (Some 0%nat).

(** ** Stepping through the code *)

Ltac go :=
  unfold bind, ret, defer, getSelf, Lock, Unlock, RLock, RUnlock, mapLookup,
    mapStore, mapDelete, mapRange, make, mapLen, callOnEvicted, assignItems,
    assignOnEvicted, entries in *;
  cbn [set_mu set_items set_heap set_onEvicted logged final heap self trace mu
       writer readers items onEvicted defaultExpiration orb andb negb Nat.eqb
       fst snd unlocked Object Expiration] in *.

(** Two worlds are equal: by their fields, the traces up to the
    bracketing of [++]. *)
Ltac same_world :=
  repeat match goal with w : world |- _ => destruct w as [? [? ? ? ?] ?] end;
  unfold set_mu, set_items, set_heap, set_onEvicted, logged, unlocked in *;
  cbn [final heap self trace mu writer readers items onEvicted
       defaultExpiration] in *;
  subst; rewrite <- ?app_assoc, ?app_nil_r; cbn [app]; reflexivity.

(** [x] is tested by no other test: it holds no [match] itself. *)
Ltac plain x :=
  lazymatch x with
  | context [match _ with _ => _ end] => fail
  | _ => idtac
  end.

(** Case analysis on the innermost test in [H], as long as there is one. *)
Ltac paths H :=
  repeat match type of H with
         | context [match ?x with _ => _ end] => plain x; destruct x eqn:?; go
         end.

Lemma gtb_true (x y : Z) : (x >? y) = true <-> y < x.
Proof. rewrite Z.gtb_ltb. apply Z.ltb_lt. Qed.

Lemma gtb_false (x y : Z) : (x >? y) = false <-> x <= y.
Proof. rewrite Z.gtb_ltb. apply Z.ltb_ge. Qed.

Lemma Expired_true (now : Z) (item : Item) :
  Expired now item = true <-> Expiration item <> 0 /\ Expiration item < now.
Proof.
  unfold Expired. destruct (Z.eqb_spec (Expiration item) 0) as [E | E].
  - split; [discriminate | tauto].
  - rewrite gtb_true. tauto.
Qed.

Lemma Expired_false (now : Z) (item : Item) :
  Expired now item = false <-> Expiration item = 0 \/ now <= Expiration item.
Proof.
  unfold Expired. destruct (Z.eqb_spec (Expiration item) 0) as [E | E].
  - tauto.
  - rewrite gtb_false. tauto.
Qed.

Lemma stale_true (now : Z) (item : Item) :
  stale now item = true <-> 0 < Expiration item < now.
Proof. unfold stale. rewrite andb_true_iff, !gtb_true. tauto. Qed.

(** An entry that [get] takes for stale is expired; with a non-negative
    expiration the two tests agree. *)
Lemma stale_Expired (now : Z) (item : Item) :
  stale now item = true -> Expired now item = true.
Proof. rewrite stale_true, Expired_true. lia. Qed.

Lemma stale_nonneg (now : Z) (item : Item) :
  0 <= Expiration item -> stale now item = Expired now item.
Proof.
  intros H. destruct (Expired now item) eqn:E.
  - apply Expired_true in E. apply stale_true. lia.
  - apply Expired_false in E. destruct (stale now item) eqn:S; [| reflexivity].
    apply stale_true in S. lia.
Qed.

Lemma set_heap_same (w : world) : set_heap (heap w) w = w.
Proof. destruct w. reflexivity. Qed.

Lemma logged_logged (es es' : list event) (w : world) :
  logged es' (logged es w) = logged (es ++ es') w.
Proof. same_world. Qed.

Lemma calls_app (t t' : list event) : calls (t ++ t') = calls t ++ calls t'.
Proof. apply omap_app. Qed.

Lemma entries_logged (es : list event) (w : world) : entries (logged es w) = entries w.
Proof. reflexivity. Qed.

Lemma entries_set_mu (m : RWMutex) (w : world) : entries (set_mu m w) = entries w.
Proof. reflexivity. Qed.

Lemma entries_NewCache (d interval : Z) (key : string) :
  entries (NewCache d interval) !! key = None.
Proof. reflexivity. Qed.

Lemma entries_allocated (w : world) (l : loc) (m : gmap string Item) :
  items (self w) = Some l -> heap w !! l = Some m -> entries w = m.
Proof. intros Hi Hl. unfold entries. rewrite Hi. cbn [deref]. rewrite Hl. reflexivity. Qed.

Lemma entries_Some_allocated (w : world) (key : string) (item : Item) :
  entries w !! key = Some item -> allocated w.
Proof.
  unfold entries, allocated. destruct (items (self w)) as [l |]; cbn [deref].
  - destruct (heap w !! l) as [m |] eqn:E; [eauto |].
    cbn [from_option]. rewrite lookup_empty. discriminate.
  - rewrite lookup_empty. discriminate.
Qed.

Lemma deref_insert (h : list (gmap string Item)) (l : loc) (m m' : gmap string Item) :
  h !! l = Some m -> deref (<[l := m']> h) (Some l) = m'.
Proof.
  intros Hl. cbn [deref]. rewrite list_lookup_insert_eq; [reflexivity |].
  apply lookup_lt_Some in Hl. exact Hl.
Qed.

(** *** [Increment], [Decrement] and the lock *)

Lemma Lock_held (w : world) : writer (mu (self w)) = true -> Lock w = Blocks w.
Proof. intros H. unfold Lock. rewrite H. reflexivity. Qed.

Lemma Increment_held (a : GOARCH) (key : string) (n now : Z) (w : world) :
  writer (mu (self w)) = true -> Increment a key n now w = Blocks w.
Proof. intros H. unfold Increment, bind. rewrite (Lock_held w H). reflexivity. Qed.

Lemma Increment_missing (a : GOARCH) (key : string) (n now : Z) (w : world) :
  mu (self w) = unlocked ->
  answer now (entries w !! key) = (VNil, false) ->
  Increment a key n now w = Returns (Some (errNotFound key)) (holding w).
Proof.
  intros Hmu Hk. unfold Increment, answer, holding in *. go. rewrite Hmu. go.
  destruct (deref (heap w) (items (self w)) !! key) as [item |]; [| reflexivity].
  destruct (Expired now item); [reflexivity | discriminate].
Qed.

Lemma Increment_not_numeric (a : GOARCH) (key : string) (n now : Z) (item : Item)
    (w : world) :
  mu (self w) = unlocked ->
  entries w !! key = Some item ->
  Expired now item = false ->
  kindOf (Object item) = None ->
  Increment a key n now w = Returns (Some (errNotNumeric key)) (holding w).
Proof.
  intros Hmu Hk He Hkind. unfold Increment, holding in *. go. rewrite Hmu. go.
  rewrite Hk, He.
  destruct (Object item); cbn [kindOf] in Hkind; try discriminate; reflexivity.
Qed.

Lemma Decrement_missing (a : GOARCH) (key : string) (n now : Z) (w : world) :
  mu (self w) = unlocked ->
  answer now (entries w !! key) = (VNil, false) ->
  Decrement a key n now w
  = Returns (Some (errNotFound key)) (logged [Acquire; Release] w).
Proof.
  intros Hmu Hk. unfold Decrement, answer in *. go. rewrite Hmu. go.
  destruct (deref (heap w) (items (self w)) !! key) as [item |].
  - destruct (Expired now item); [| discriminate]. go. f_equal. same_world.
  - go. f_equal. same_world.
Qed.

Lemma Decrement_not_numeric (a : GOARCH) (key : string) (n now : Z) (item : Item)
    (w : world) :
  mu (self w) = unlocked ->
  entries w !! key = Some item ->
  Expired now item = false ->
  kindOf (Object item) = None ->
  Decrement a key n now w
  = Returns (Some (errNotInteger key)) (logged [Acquire; Release] w).
Proof.
  intros Hmu Hk He Hkind. unfold Decrement in *. go. rewrite Hmu. go.
  rewrite Hk, He.
  destruct (Object item); cbn [kindOf] in Hkind; try discriminate;
    cbn [decrement]; go; f_equal; same_world.
Qed.

(** *** [delete] and [DeleteExpired] *)

Lemma mapDelete_returns (r : mapref) (key : string) (w : world) :
  exists h',
    mapDelete r key w = Returns tt (set_heap h' w)
    /\ deref h' r = base.delete key (deref (heap w) r)
    /\ length h' = length (heap w)
    /\ (forall l, r <> Some l -> h' !! l = heap w !! l).
Proof.
  unfold mapDelete. destruct r as [l |].
  - destruct (heap w !! l) as [m |] eqn:E.
    + exists (<[l := base.delete key m]> (heap w)). split; [reflexivity |].
      split; [| split].
      * rewrite (deref_insert _ _ _ _ E). cbn [deref]. rewrite E. reflexivity.
      * apply length_insert.
      * intros l' Hl'. apply list_lookup_insert_ne. congruence.
    + exists (heap w). split; [rewrite set_heap_same; reflexivity |].
      split; [| split; [reflexivity | reflexivity]].
      cbn [deref]. rewrite E. cbn [from_option]. symmetry. apply delete_empty.
  - exists (heap w). split; [rewrite set_heap_same; reflexivity |].
    split; [| split; [reflexivity | reflexivity]].
    cbn [deref]. symmetry. apply delete_empty.
Qed.

(** What [c.delete] does: the entry leaves the map; the old value comes
    back with [true] exactly when a callback is registered and the key had
    an entry. *)
Lemma delete_returns (key : string) (w : world) :
  exists h',
    delete key w
    = Returns (match onEvicted (self w), entries w !! key with
               | Some _, Some item => (Object item, true)
               | _, _ => (VNil, false)
               end) (set_heap h' w)
    /\ deref h' (items (self w)) = base.delete key (entries w)
    /\ length h' = length (heap w)
    /\ (forall l, items (self w) <> Some l -> h' !! l = heap w !! l).
Proof.
  destruct (mapDelete_returns (items (self w)) key w) as (h' & Hd & Hm & Hl).
  exists h'. split; [| split; assumption].
  unfold delete, bind, getSelf, mapLookup, ret, entries.
  destruct (onEvicted (self w)) as [f |].
  - destruct (deref (heap w) (items (self w)) !! key) as [item |];
      rewrite Hd; reflexivity.
  - rewrite Hd. reflexivity.
Qed.

Lemma callAll_returns (f : callback) (ev : list (string * value)) :
  forall w : world,
    onEvicted (self w) = Some f ->
    callAll ev w = Returns tt (logged (map (fun kv => Call f kv.1 kv.2) ev) w).
Proof.
  induction ev as [| [key v] rest IH]; intros w Ho.
  - cbn [callAll map ret]. f_equal. same_world.
  - cbn [callAll map]. unfold bind, callOnEvicted. rewrite Ho.
    rewrite IH by exact Ho. f_equal. same_world.
Qed.

Lemma reclaimed_keys (now : Z) (es : list (string * Item)) (k : string) :
  k ∈ (reclaimed now es).*1 <-> exists item, (k, item) ∈ es /\ Expired now item = true.
Proof.
  induction es as [| [k0 it0] rest IH].
  - cbn. split; [intros H; inversion H | intros (item & H & _); inversion H].
  - cbn [reclaimed]. destruct (Expired now it0) eqn:E0.
    + cbn [fmap list_fmap fst]. rewrite elem_of_cons, IH. split.
      * intros [-> | (item & H & He)].
        -- exists it0. split; [left | exact E0].
        -- exists item. split; [right; exact H | exact He].
      * intros (item & H & He). apply elem_of_cons in H as [[= -> ->] | H].
        -- left. reflexivity.
        -- right. eauto.
    + rewrite IH. split.
      * intros (item & H & He). exists item. split; [right; exact H | exact He].
      * intros (item & H & He). apply elem_of_cons in H as [[= -> ->] | H].
        -- congruence.
        -- eauto.
Qed.

(** The loop of [DeleteExpired] over entries that are in the map: it
    removes the expired ones and, when a callback is registered, collects
    them. *)
Lemma sweep_reclaims (now : Z) (es : list (string * Item)) :
  forall (ev : list (string * value)) (w : world),
    NoDup es.*1 ->
    (forall k item, (k, item) ∈ es -> entries w !! k = Some item) ->
    exists h',
      sweep now es ev w
      = Returns (ev ++ match onEvicted (self w) with
                       | Some _ => reclaimed now es
                       | None => []
                       end) (set_heap h' w)
      /\ forall k, deref h' (items (self w)) !! k
                   = if decide (k ∈ (reclaimed now es).*1) then None
                     else entries w !! k.
Proof.
  induction es as [| [key item] rest IH]; intros ev w Hnd Hin.
  - exists (heap w). rewrite set_heap_same. cbn [sweep reclaimed ret].
    split; [destruct (onEvicted (self w)); rewrite app_nil_r; reflexivity |].
    intros k. reflexivity.
  - cbn [fmap list_fmap fst] in Hnd. apply NoDup_cons in Hnd as [Hkey Hnd].
    cbn [sweep reclaimed]. destruct (Expired now item) eqn:E.
    + unfold bind. destruct (delete_returns key w) as (h1 & Hd & Hm & _).
      rewrite Hd. rewrite (Hin key item) by left.
      assert (Hin1 : forall k it, (k, it) ∈ rest ->
                       entries (set_heap h1 w) !! k = Some it).
      { intros k it Hk. unfold entries. cbn [set_heap heap self]. rewrite Hm.
        rewrite lookup_delete_ne; [apply Hin; right; exact Hk |].
        intros ->. apply Hkey. apply list_elem_of_fmap.
        exists (k, it). split; [reflexivity | exact Hk]. }
      assert (Hent : forall h' k,
                 (forall k, deref h' (items (self w)) !! k
                            = if decide (k ∈ (reclaimed now rest).*1) then None
                              else entries (set_heap h1 w) !! k) ->
                 deref h' (items (self w)) !! k
                 = if decide (k ∈ ((key, Object item) :: reclaimed now rest).*1)
                   then None else entries w !! k).
      { intros h' k H. rewrite H. unfold entries at 1. cbn [set_heap heap self].
        rewrite Hm. cbn [fmap list_fmap fst].
        destruct (decide (k ∈ (reclaimed now rest).*1)) as [Hr | Hr].
        - rewrite decide_True by (right; exact Hr). reflexivity.
        - destruct (decide (k = key)) as [-> | Hne].
          + rewrite decide_True by left. apply lookup_delete_eq.
          + rewrite decide_False.
            * apply lookup_delete_ne. congruence.
            * intros Hc. apply elem_of_cons in Hc as [Hc | Hc]; contradiction. }
      destruct (onEvicted (self w)) as [f |] eqn:Ho; cbn [snd fst].
      * destruct (IH (ev ++ [(key, Object item)]) (set_heap h1 w) Hnd Hin1)
          as (h' & HS & He).
        exists h'. rewrite HS. cbn [set_heap self]. rewrite Ho.
        rewrite <- app_assoc. split; [reflexivity |].
        intros k. apply Hent. exact He.
      * destruct (IH ev (set_heap h1 w) Hnd Hin1) as (h' & HS & He).
        exists h'. rewrite HS. cbn [set_heap self]. rewrite Ho.
        split; [reflexivity |]. intros k. apply Hent. exact He.
    + apply IH; [exact Hnd |]. intros k it Hk. apply Hin. right. exact Hk.
Qed.

(** [DeleteExpired] from a free lock: one acquisition; under it every
    expired entry leaves the map and the others stay; one release; then one
    call of the callback, if there is one, for each entry reclaimed; and
    then the deferred [Unlock] meets the mutex that the explicit one has
    released, and the call ends in the fatal error. *)
Lemma DeleteExpired_fatal (now : Z) (w : world) :
  mu (self w) = unlocked ->
  exists w' : world,
    DeleteExpired now w = Fatal "sync: Unlock of unlocked RWMutex" w'
    /\ mu (self w') = unlocked
    /\ entries w' = filter (live now) (entries w)
    /\ trace w'
       = trace w ++ [Acquire; Release]
         ++ match onEvicted (self w) with
            | Some f => map (fun kv => Call f kv.1 kv.2)
                          (reclaimed now (map_to_list (entries w)))
            | None => []
            end.
Proof.
  intros Hmu. unfold DeleteExpired.
  unfold bind at 1. unfold Lock. rewrite Hmu.
  cbn [unlocked writer readers orb negb Nat.eqb].
  set (w1 := logged [Acquire] (set_mu (mkMu true 0) w)).
  unfold defer, bind, getSelf, mapRange.
  destruct (sweep_reclaims now (map_to_list (deref (heap w1) (items (self w1)))) [] w1)
    as (h2 & Hs & Hent).
  { apply NoDup_fst_map_to_list. }
  { intros k item Hk. apply elem_of_map_to_list in Hk. exact Hk. }
  rewrite Hs. unfold Unlock at 1.
  cbn [w1 set_heap set_mu logged self mu writer readers app onEvicted heap items].
  fold (entries w).
  match goal with |- context [callAll ?ev ?w0] => set (w3 := w0); set (ev0 := ev) end.
  assert (Hw3 : mu (self w3) = unlocked) by reflexivity.
  assert (Ht3 : trace w3 = trace w ++ [Acquire; Release]).
  { subst w3 w1. unfold logged, set_mu, set_heap. cbn [heap self trace].
    rewrite <- app_assoc. reflexivity. }
  assert (He3 : entries w3 = filter (live now) (entries w)).
  { apply map_eq. intros k. subst w3. unfold entries at 1.
    cbn [logged set_mu set_heap heap self items].
    change (items (self w)) with (items (self w1)). rewrite Hent.
    change (entries w1) with (entries w).
    change (deref (heap w1) (items (self w1))) with (entries w).
    destruct (decide (k ∈ (reclaimed now (map_to_list (entries w))).*1)) as [Hr | Hr].
    - symmetry. apply map_lookup_filter_None. right. intros item Hk.
      apply reclaimed_keys in Hr as (item' & Hk' & He').
      apply elem_of_map_to_list in Hk'. rewrite Hk in Hk'. injection Hk' as <-.
      unfold live. cbn [snd]. congruence.
    - destruct (entries w !! k) as [item |] eqn:Hk.
      + symmetry. apply map_lookup_filter_Some. split; [exact Hk |].
        unfold live. cbn [snd].
        destruct (Expired now item) eqn:He; [| reflexivity].
        exfalso. apply Hr. apply reclaimed_keys. exists item.
        split; [apply elem_of_map_to_list; exact Hk | exact He].
      + symmetry. apply map_lookup_filter_None. left. exact Hk. }
  destruct (onEvicted (self w)) as [f |] eqn:Ho.
  - rewrite (callAll_returns f ev0 w3 Ho).
    unfold Unlock. cbn [logged self]. rewrite Hw3. cbn [unlocked writer].
    eexists. split; [reflexivity |]. split; [exact Hw3 |].
    split; [exact He3 |].
    cbn [logged trace]. rewrite Ht3, <- app_assoc. reflexivity.
  - subst ev0. cbn [callAll ret]. unfold Unlock. rewrite Hw3.
    cbn [unlocked writer].
    exists w3. split; [reflexivity |]. split; [exact Hw3 |].
    split; [exact He3 | rewrite Ht3; reflexivity].
Qed.

(** C2 (fails on the code).  [DeleteExpired] from a free lock always
    ends in the fatal error of unlocking an unlocked mutex: the deferred
    [Unlock] is a second release.  Before that it has acquired the lock
    once, removed under it every expired entry and no other, released the
    lock, and called the callback, if one is registered, once for each
    entry reclaimed.  On the store [sample], whose one entry is expired at
    10: the map is empty, the callback was called with that entry, and the
    call ends in the fatal error. *)
Theorem DeleteExpired_unlocks_twice :
  (forall (now : Z) (w : world),
     mu (self w) = unlocked ->
     exists w' : world,
       DeleteExpired now w = Fatal "sync: Unlock of unlocked RWMutex" w'
       /\ mu (self w') = unlocked
       /\ entries w' = filter (live now) (entries w)
       /\ trace w'
          = trace w ++ [Acquire; Release]
            ++ match onEvicted (self w) with
               | Some f => map (fun kv => Call f kv.1 kv.2)
                             (reclaimed now (map_to_list (entries w)))
               | None => []
               end)
  /\ (forall now d interval : Z,
        DeleteExpired now (NewCache d interval)
        = Fatal "sync: Unlock of unlocked RWMutex"
            (logged [Acquire; Release] (NewCache d interval)))
  /\ DeleteExpired 10 sample
     = Fatal "sync: Unlock of unlocked RWMutex"
         (mkWorld [∅] (self sample) [Acquire; Release; Call 7%nat "a" (VInt 1)]).
Proof.
  split; [| split].
  - intros now w Hmu. apply DeleteExpired_fatal. exact Hmu.
  - intros now d interval. reflexivity.
  - vm_compute. reflexivity.
Qed.

Lemma DeleteExpired_unlocks_twice_witness :
  exists w' : world,
    DeleteExpired 10 sample = Fatal "sync: Unlock of unlocked RWMutex" w'
    /\ mu (self w') = unlocked
    /\ entries w' = filter (live 10) (entries sample)
    /\ trace w'
       = trace sample ++ [Acquire; Release]
         ++ match onEvicted (self sample) with
            | Some f => map (fun kv => Call f kv.1 kv.2)
                          (reclaimed 10 (map_to_list (entries sample)))
            | None => []
            end.
Proof.
  exact (proj1 DeleteExpired_unlocks_twice 10 sample eq_refl).
Defined.

(** *** Operations that never call the callback *)

Lemma silent_ret {A : Type} (a : A) : silent (ret a).
Proof. intros w. reflexivity. Qed.

Lemma silent_bind {A B : Type} (m : M A) (k : A -> M B) :
  silent m -> (forall a, silent (k a)) -> silent (bind m k).
Proof.
  intros Hm Hk w. unfold bind. specialize (Hm w).
  destruct (m w) as [a w' | w' | msg w' | msg w']; cbn [final] in *;
    try assumption.
  rewrite (Hk a w'). exact Hm.
Qed.

Lemma silent_defer {A : Type} (d : M unit) (body : M A) :
  silent d -> silent body -> silent (defer d body).
Proof.
  intros Hd Hb w. unfold defer. specialize (Hb w).
  destruct (body w) as [a w' | w' | msg w' | msg w']; cbn [final] in *;
    try assumption;
    specialize (Hd w'); destruct (d w') as [[] w'' | w'' | msg' w'' | msg' w''];
    cbn [final] in *; congruence.
Qed.

Lemma calls_lock_event (t : list event) (e : event) :
  (forall f key v, e <> Call f key v) -> calls (t ++ [e]) = calls t.
Proof.
  intros H. rewrite calls_app. destruct e; cbn; try apply app_nil_r.
  exfalso. eapply H. reflexivity.
Qed.

Lemma silent_Lock : silent Lock.
Proof.
  intros w. unfold Lock. destruct (_ || _); [reflexivity |].
  cbn [final logged trace set_mu]. apply calls_lock_event. discriminate.
Qed.

Lemma silent_Unlock : silent Unlock.
Proof.
  intros w. unfold Unlock. destruct (writer _); [| reflexivity].
  cbn [final logged trace set_mu]. apply calls_lock_event. discriminate.
Qed.

Lemma silent_RLock : silent RLock.
Proof.
  intros w. unfold RLock. destruct (writer _); [reflexivity |].
  cbn [final logged trace set_mu]. apply calls_lock_event. discriminate.
Qed.

Lemma silent_RUnlock : silent RUnlock.
Proof.
  intros w. unfold RUnlock. destruct (readers _); [reflexivity |].
  cbn [final logged trace set_mu]. apply calls_lock_event. discriminate.
Qed.

Lemma silent_getSelf : silent getSelf.
Proof. intros w. reflexivity. Qed.

Lemma silent_make : silent make.
Proof. intros w. reflexivity. Qed.

Lemma silent_mapLookup (r : mapref) (key : string) : silent (mapLookup r key).
Proof. intros w. reflexivity. Qed.

Lemma silent_mapStore (r : mapref) (key : string) (item : Item) :
  silent (mapStore r key item).
Proof.
  intros w. unfold mapStore.
  destruct r as [l |]; [destruct (heap w !! l) |]; reflexivity.
Qed.

Lemma silent_mapDelete (r : mapref) (key : string) : silent (mapDelete r key).
Proof.
  intros w. unfold mapDelete.
  destruct r as [l |]; [destruct (heap w !! l) |]; reflexivity.
Qed.

Create HintDb silent.
#[global] Hint Resolve silent_ret silent_Lock silent_Unlock silent_RLock
  silent_RUnlock silent_getSelf silent_make silent_mapLookup silent_mapStore
  silent_mapDelete : silent.

Ltac silence :=
  repeat first
    [ progress auto with silent
    | apply silent_bind; [| intros ?]
    | match goal with
      | |- silent (match ?x with _ => _ end) => destruct x
      | |- silent (if ?x then _ else _) => destruct x
      end ].

Lemma silent_set (key : string) (val : value) (d now : Z) : silent (set key val d now).
Proof. unfold set. silence. Qed.

Lemma silent_get (key : string) (now : Z) : silent (get key now).
Proof. unfold get. silence. Qed.

Lemma silent_Set (key : string) (val : value) (d now : Z) : silent (Set_ key val d now).
Proof. unfold Set_. silence. Qed.

Lemma silent_Add (key : string) (val : value) (d now : Z) : silent (Add key val d now).
Proof. unfold Add. pose proof silent_get. pose proof silent_set. silence. Qed.

Lemma silent_Replace (key : string) (val : value) (d now : Z) :
  silent (Replace key val d now).
Proof. unfold Replace. pose proof silent_get. pose proof silent_set. silence. Qed.

Lemma silent_Flush : silent Flush.
Proof.
  unfold Flush. apply silent_bind; [apply silent_Lock | intros _].
  apply silent_defer; [apply silent_Unlock |].
  apply silent_bind; [apply silent_make | intros m].
  intros w. reflexivity.
Qed.

(** *** [Delete] and [Flush] *)

Lemma Delete_present (key : string) (f : callback) (item : Item) (w : world) :
  mu (self w) = unlocked ->
  onEvicted (self w) = Some f ->
  entries w !! key = Some item ->
  exists w',
    Delete key w = Returns tt w'
    /\ trace w' = trace w ++ [Acquire; Release; Call f key (Object item)]
    /\ entries w' = base.delete key (entries w)
    /\ self w' = self w.
Proof.
  intros Hmu Ho Hk. unfold Delete.
  unfold bind at 1. unfold Lock. rewrite Hmu.
  cbn [unlocked writer readers orb negb Nat.eqb].
  set (w1 := logged [Acquire] (set_mu (mkMu true 0) w)).
  destruct (delete_returns key w1) as (h' & Hd & Hm & _).
  unfold bind at 1. rewrite Hd.
  replace (onEvicted (self w1)) with (Some f) by (symmetry; exact Ho).
  replace (entries w1 !! key) with (Some item) by (symmetry; exact Hk).
  unfold bind, Unlock, callOnEvicted.
  cbn [w1 set_heap set_mu logged self mu writer readers heap trace onEvicted snd fst].
  rewrite Ho. eexists. split; [reflexivity |].
  unfold logged, set_mu, set_heap, entries in *.
  cbn [trace self heap items] in *.
  split; [subst w1; cbn [trace]; rewrite <- !app_assoc; reflexivity |].
  split.
  - exact Hm.
  - clear - Hmu Ho. destruct w as [h [d i m o] cs]. cbn in *. subst m o.
    reflexivity.
Qed.

Lemma Flush_returns (w : world) :
  mu (self w) = unlocked ->
  exists w',
    Flush w = Returns tt w'
    /\ entries w' = ∅ /\ trace w' = trace w ++ [Acquire; Release]
    /\ mu (self w') = unlocked.
Proof.
  intros Hmu. unfold Flush. go. rewrite Hmu. go.
  eexists. split; [reflexivity |]. go.
  unfold logged, set_mu, set_heap, set_items. cbn [trace self heap items mu].
  split; [| split; [rewrite <- app_assoc; reflexivity | reflexivity]].
  cbn [deref]. rewrite lookup_app_r by reflexivity.
  rewrite Nat.sub_diag. reflexivity.
Qed.

(** C3.  With a callback [f] registered and the lock free, [Delete] of a
    key that has an entry returns and removes the entry; what it adds to
    the trace is one acquisition of the lock, its release, and then one
    call of [f] with that key and the entry's value.  [Flush], [Add],
    [Replace] and [Set] add no call to the trace, however they end;
    [Flush] with the lock free returns and leaves an empty map. *)
Theorem Delete_calls_back_once :
  (forall (key : string) (f : callback) (item : Item) (w : world),
     mu (self w) = unlocked ->
     onEvicted (self w) = Some f ->
     entries w !! key = Some item ->
     exists w',
       Delete key w = Returns tt w'
       /\ trace w' = trace w ++ [Acquire; Release; Call f key (Object item)]
       /\ calls (trace w') = calls (trace w) ++ [(f, key, Object item)]
       /\ entries w' = base.delete key (entries w)
       /\ mu (self w') = unlocked)
  /\ (forall w : world, calls (trace (final (Flush w))) = calls (trace w))
  /\ (forall w : world,
        mu (self w) = unlocked ->
        exists w',
          Flush w = Returns tt w' /\ entries w' = ∅
          /\ calls (trace w') = calls (trace w))
  /\ (forall (key : string) (val : value) (d now : Z) (w : world),
        calls (trace (final (Add key val d now w))) = calls (trace w))
  /\ (forall (key : string) (val : value) (d now : Z) (w : world),
        calls (trace (final (Replace key val d now w))) = calls (trace w))
  /\ (forall (key : string) (val : value) (d now : Z) (w : world),
        calls (trace (final (Set_ key val d now w))) = calls (trace w)).
Proof.
  split; [| split; [| split; [| split; [| split]]]].
  - intros key f item w Hmu Ho Hk.
    destruct (Delete_present key f item w Hmu Ho Hk) as (w' & H1 & H2 & H3 & H4).
    exists w'. rewrite H4. split; [exact H1 |]. split; [exact H2 |].
    split; [| auto]. rewrite H2, calls_app. reflexivity.
  - apply silent_Flush.
  - intros w Hmu. destruct (Flush_returns w Hmu) as (w' & H1 & H2 & H3 & _).
    exists w'. split; [exact H1 |]. split; [exact H2 |].
    rewrite H3, calls_app. apply app_nil_r.
  - intros key val d now. apply silent_Add.
  - intros key val d now. apply silent_Replace.
  - intros key val d now. apply silent_Set.
Qed.

Lemma Delete_calls_back_once_witness :
  exists w',
    Delete "a" sample = Returns tt w'
    /\ trace w' = trace sample ++ [Acquire; Release; Call 7%nat "a" (VInt 1)]
    /\ calls (trace w') = calls (trace sample) ++ [(7%nat, "a", VInt 1)]
    /\ entries w' = base.delete "a" (entries sample)
    /\ mu (self w') = unlocked.
Proof.
  apply (proj1 Delete_calls_back_once "a" 7%nat (mkItem (VInt 1) 5) sample);
    reflexivity.
Defined.

(** *** [Get], [Set] and [ItemCount] *)

Lemma Get_returns (key : string) (now : Z) (w : world) :
  writer (mu (self w)) = false ->
  Get key now w
  = Returns (answer now (entries w !! key)) (logged [RAcquire; RRelease] w).
Proof.
  destruct w as [h [d i [wr n] o] cs]. cbn [self mu writer]. intros ->.
  unfold Get, answer. go.
  destruct (deref h i !! key) as [item |]; [destruct (Expired now item) |];
    go; f_equal; same_world.
Qed.

Lemma Set_returns (key : string) (val : value) (d now : Z) (w : world) :
  mu (self w) = unlocked ->
  allocated w ->
  exists w',
    Set_ key val d now w = Returns tt w'
    /\ entries w' = <[key := mkItem val (expiration (self w) d now)]> (entries w)
    /\ self w' = self w
    /\ trace w' = trace w ++ [Acquire; Release]
    /\ allocated w'.
Proof.
  intros Hmu (l & m & Hi & Hl).
  exists (logged [Acquire; Release]
            (set_heap (<[l := <[key := mkItem val (expiration (self w) d now)]> m]>
                         (heap w)) w)).
  split; [| split; [| split; [| split]]].
  - destruct w as [h [dE i mu0 o] cs]. cbn [self mu items heap] in *. subst mu0 i.
    unfold Set_, expiration. go. rewrite Hl. f_equal. same_world.
  - rewrite entries_logged. unfold entries. cbn [set_heap heap self].
    rewrite Hi, (deref_insert _ _ _ _ Hl). cbn [deref]. rewrite Hl. reflexivity.
  - reflexivity.
  - reflexivity.
  - exists l, (<[key := mkItem val (expiration (self w) d now)]> m).
    split; [exact Hi |]. cbn [logged set_heap heap].
    apply list_lookup_insert_eq. apply lookup_lt_Some in Hl. exact Hl.
Qed.

Lemma UnixNanoAfter_nonzero (now d : Z) :
  0 <= now < 2 ^ 63 -> 0 < d < 2 ^ 63 -> UnixNanoAfter now d <> 0.
Proof.
  intros Hn Hd. unfold UnixNanoAfter, wrapS.
  change (2 ^ (64 - 1)) with 9223372036854775808 in *.
  change (2 ^ 64) with 18446744073709551616 in *.
  change (2 ^ 63) with 9223372036854775808 in *.
  destruct (Z_lt_le_dec (now + d) 9223372036854775808) as [Hs | Hs].
  - rewrite Z.mod_small by lia. lia.
  - replace (now + d + 9223372036854775808)
      with ((now + d - 9223372036854775808) + 1 * 18446744073709551616) by lia.
    rewrite Z.mod_add by lia. rewrite Z.mod_small by lia. lia.
Qed.

(** Without overflow the expiry instant is the sum. *)
Lemma UnixNanoAfter_sum (now d : Z) :
  - 2 ^ 63 <= now + d < 2 ^ 63 -> UnixNanoAfter now d = now + d.
Proof.
  intros H. unfold UnixNanoAfter, wrapS.
  change (2 ^ (64 - 1)) with 9223372036854775808 in *.
  change (2 ^ 64) with 18446744073709551616 in *.
  change (2 ^ 63) with 9223372036854775808 in *.
  rewrite Z.mod_small by lia. lia.
Qed.

Lemma ItemCount_returns (w : world) :
  writer (mu (self w)) = false ->
  ItemCount w = Returns (size (entries w)) (logged [RAcquire; RRelease] w).
Proof.
  destruct w as [h [d i [wr n] o] cs]. cbn [self mu writer]. intros ->.
  unfold ItemCount. go. f_equal. same_world.
Qed.

(** C9.  With no writer holding the lock, [ItemCount] returns the number
    of entries of the store's map; heap and store are as they were.  The
    number does not depend on the clock: where an entry is expired at
    [now], the count is greater than the number of entries live at
    [now]. *)
Theorem ItemCount_counts_every_entry :
  forall w : world,
    writer (mu (self w)) = false ->
    ItemCount w = Returns (size (entries w)) (logged [RAcquire; RRelease] w)
    /\ forall (now : Z) (key : string) (item : Item),
         entries w !! key = Some item ->
         Expired now item = true ->
         (size (filter (live now) (entries w)) < size (entries w))%nat.
Proof.
  intros w Hw. split; [apply ItemCount_returns; exact Hw |].
  intros now key item Hk He.
  apply map_subset_size. apply map_subset_alt.
  split; [apply map_filter_subseteq |].
  exists key. split; [| rewrite Hk; eauto].
  apply map_lookup_filter_None. right. intros x Hx.
  rewrite Hk in Hx. injection Hx as <-.
  unfold live. cbn. rewrite He. discriminate.
Qed.

Lemma ItemCount_counts_every_entry_witness :
  ItemCount sample = Returns (size (entries sample)) (logged [RAcquire; RRelease] sample)
  /\ forall (now : Z) (key : string) (item : Item),
       entries sample !! key = Some item ->
       Expired now item = true ->
       (size (filter (live now) (entries sample)) < size (entries sample))%nat.
Proof.
  exact (ItemCount_counts_every_entry sample eq_refl).
Defined.

(** C10.  [newCache] with a default of zero stores [-1], the value of
    [NoExpiration], as the default.  On such a store (lock free, map
    existing), [Set] with [DefaultExpiration] and [SetDefault] store the
    entry with expiration [0], which is never expired: [Get] returns the
    value with [true] at every time. *)
Theorem zero_default_never_expires :
  forall (h : list (gmap string Item)) (l : loc) (m : gmap string Item)
         (t0 : list event) (key : string) (val : value) (now : Z),
    h !! l = Some m ->
    let w := mkWorld h (newCache 0 (Some l)) t0 in
    defaultExpiration (self w) = NoExpiration
    /\ exists w',
         Set_ key val DefaultExpiration now w = Returns tt w'
         /\ SetDefault key val now w = Returns tt w'
         /\ entries w' !! key = Some (mkItem val 0)
         /\ (forall t : Z, Expired t (mkItem val 0) = false)
         /\ (forall t : Z,
               Get key t w' = Returns (val, true) (logged [RAcquire; RRelease] w')).
Proof.
  intros h l m t0 key val now Hl w. split; [reflexivity |].
  assert (Hal : allocated w) by (exists l, m; split; [reflexivity | exact Hl]).
  destruct (Set_returns key val DefaultExpiration now w eq_refl Hal)
    as (w' & HS & He & Hs & _).
  change (expiration (self w) DefaultExpiration now) with 0 in He.
  exists w'. split; [exact HS |]. split; [exact HS |].
  split; [rewrite He; apply lookup_insert_eq |].
  split; [reflexivity |].
  intros t. rewrite Get_returns by (rewrite Hs; reflexivity).
  rewrite He, lookup_insert_eq. reflexivity.
Qed.

Lemma zero_default_never_expires_witness :
  defaultExpiration (self (NewCache 0 0)) = NoExpiration
  /\ exists w',
       Set_ "k" (VInt 1) DefaultExpiration 100 (NewCache 0 0) = Returns tt w'
       /\ SetDefault "k" (VInt 1) 100 (NewCache 0 0) = Returns tt w'
       /\ entries w' !! "k" = Some (mkItem (VInt 1) 0)
       /\ (forall t : Z, Expired t (mkItem (VInt 1) 0) = false)
       /\ (forall t : Z,
             Get "k" t w' = Returns (VInt 1, true) (logged [RAcquire; RRelease] w')).
Proof.
  exact (zero_default_never_expires [∅] 0%nat ∅ [] "k" (VInt 1) 100 eq_refl).
Defined.

(** *** [Items] *)

Lemma copied_cons (now : Z) (k : string) (item : Item)
    (rest : list (string * Item)) (acc : gmap string Item) :
  copied now ((k, item) :: rest) acc
  = copied now rest (if negb (Expired now item) then <[k := item]> acc else acc).
Proof. reflexivity. Qed.

Lemma copyLive_returns (now : Z) (l' : loc) (es : list (string * Item)) :
  forall (w : world) (acc : gmap string Item),
    heap w !! l' = Some acc ->
    copyLive now es (Some l') w
    = Returns tt (set_heap (<[l' := copied now es acc]> (heap w)) w).
Proof.
  induction es as [| [k item] rest IH]; intros w acc Hl.
  - cbn [copyLive copied foldl ret]. rewrite list_insert_id by exact Hl.
    rewrite set_heap_same. reflexivity.
  - cbn [copyLive]. rewrite copied_cons.
    destruct (Expired now item); cbn [negb].
    + apply IH. exact Hl.
    + unfold bind, mapStore. rewrite Hl.
      rewrite (IH _ (<[k := item]> acc)).
      * cbn [set_heap heap self trace]. rewrite list_insert_insert_eq. reflexivity.
      * cbn [set_heap heap]. apply list_lookup_insert_eq.
        apply lookup_lt_Some in Hl. exact Hl.
Qed.

Lemma copied_lookup (now : Z) (es : list (string * Item)) :
  forall acc : gmap string Item,
    NoDup es.*1 ->
    (forall k, k ∈ es.*1 -> acc !! k = None) ->
    forall (k : string) (item : Item),
      copied now es acc !! k = Some item
      <-> acc !! k = Some item \/ ((k, item) ∈ es /\ Expired now item = false).
Proof.
  induction es as [| [k0 it0] rest IH]; intros acc Hnd Hdis k item.
  - cbn. split; [auto | intros [H | [H _]]; [exact H | inversion H]].
  - rewrite copied_cons.
    cbn [fmap list_fmap fst] in Hnd, Hdis. apply NoDup_cons in Hnd as [Hk0 Hnd].
    assert (Hacc0 : acc !! k0 = None) by (apply Hdis; left).
    rewrite elem_of_cons.
    destruct (Expired now it0) eqn:E0; cbn [negb].
    + rewrite IH; [| exact Hnd | intros k' Hk'; apply Hdis; right; exact Hk'].
      split; [tauto |]. intros [H | [[H | H] Hl]]; [tauto | | tauto].
      injection H as -> ->. congruence.
    + rewrite IH; [| exact Hnd |].
      * rewrite lookup_insert. destruct (decide (k0 = k)) as [<- | Hne].
        -- split.
           ++ intros [H | H]; [injection H as <-; right; auto | right; tauto].
           ++ intros [H | [[H | H] Hl]]; [congruence | |].
              ** injection H as ->. left. reflexivity.
              ** exfalso. apply Hk0. apply list_elem_of_fmap.
                 exists (k0, item). split; [reflexivity | exact H].
        -- split; [tauto |]. intros [H | [[H | H] Hl]]; [tauto | | tauto].
           injection H as -> ->. congruence.
      * intros k' Hk'. rewrite lookup_insert_ne; [apply Hdis; right; exact Hk' |].
        intros ->. contradiction.
Qed.

(** Whatever the order in which the loop meets the entries, the copy is
    the map of the live ones. *)
Lemma copied_filter (now : Z) (m : gmap string Item) :
  copied now (map_to_list m) ∅ = filter (live now) m.
Proof.
  apply map_eq. intros k. apply option_eq. intros item.
  rewrite copied_lookup;
    [| apply NoDup_fst_map_to_list | intros; apply lookup_empty].
  rewrite lookup_empty, map_lookup_filter_Some, elem_of_map_to_list.
  unfold live. cbn [snd]. split; [intros [H | H]; [discriminate | exact H] | auto].
Qed.

Lemma mutate_frame (l' : loc) (ms : list mutation) :
  forall w : world,
  exists h',
    mutate (Some l') ms w = Returns tt (set_heap h' w)
    /\ length h' = length (heap w)
    /\ (forall l, l <> l' -> h' !! l = heap w !! l)
    \/ exists msg w', mutate (Some l') ms w = Panics msg w' /\ heap w !! l' = None.
Proof.
  induction ms as [| [key item | key] rest IH]; intros w.
  - exists (heap w). left. rewrite set_heap_same. repeat split.
  - cbn [mutate]. unfold bind, mapStore.
    destruct (heap w !! l') as [m |] eqn:E.
    + destruct (IH (set_heap (<[l' := <[key := item]> m]> (heap w)) w))
        as (h' & [(H1 & H2 & H3) | (msg & w' & H1 & H2)]).
      * exists h'. left. rewrite H1. split; [reflexivity |].
        cbn [set_heap heap] in H2, H3. rewrite length_insert in H2.
        split; [exact H2 |]. intros l Hl. rewrite H3 by exact Hl.
        apply list_lookup_insert_ne. congruence.
      * exfalso. cbn [set_heap heap] in H2.
        rewrite list_lookup_insert_eq in H2; [discriminate |].
        apply lookup_lt_Some in E. exact E.
    + exists (heap w). right. eauto.
  - cbn [mutate]. unfold bind.
    destruct (mapDelete_returns (Some l') key w) as (h1 & Hd & _ & Hlen & Hfr).
    rewrite Hd.
    destruct (IH (set_heap h1 w)) as (h' & [(H1 & H2 & H3) | (msg & w' & H1 & H2)]).
    + exists h'. left. rewrite H1. split; [reflexivity |].
      cbn [set_heap heap] in H2, H3. split; [congruence |].
      intros l Hl. rewrite H3 by exact Hl. apply Hfr. congruence.
    + exists h'. right. exists msg, w'. split; [exact H1 |].
      cbn [set_heap heap] in H2. apply lookup_ge_None in H2.
      apply lookup_ge_None. rewrite <- Hlen. exact H2.
Qed.

Lemma deref_app (h : list (gmap string Item)) (r : mapref) :
  deref (h ++ [∅]) r = deref h r.
Proof.
  destruct r as [l |]; [| reflexivity]. cbn [deref].
  destruct (lt_eq_lt_dec l (length h)) as [[Hlt | Heq] | Hgt].
  - rewrite lookup_app_l by exact Hlt. reflexivity.
  - rewrite lookup_app_r by lia. rewrite Heq, Nat.sub_diag.
    rewrite (lookup_ge_None_2 h (length h)) by lia. reflexivity.
  - rewrite (lookup_ge_None_2 (h ++ [∅]) l).
    + rewrite (lookup_ge_None_2 h l) by lia. reflexivity.
    + rewrite length_app. cbn [length]. lia.
Qed.

Lemma Items_returns (now : Z) (w : world) :
  writer (mu (self w)) = false ->
  Items now w
  = Returns (Some (length (heap w)))
      (logged [RAcquire; RRelease]
         (set_heap (heap w ++ [filter (live now) (entries w)]) w)).
Proof.
  destruct w as [h [d i [wr n] o] cs]. cbn [self mu writer heap]. intros ->.
  unfold Items. unfold bind at 1. unfold RLock.
  cbn [self mu writer readers].
  unfold defer, bind, make, getSelf, mapRange, ret.
  unfold logged at 1 2 3 4. unfold set_mu, set_heap.
  cbn [self heap trace items mu defaultExpiration onEvicted].
  rewrite (copyLive_returns now (length h) _ _ ∅).
  - unfold RUnlock. unfold set_heap, set_mu, logged, entries.
    cbn [self mu readers writer heap trace defaultExpiration items onEvicted].
    rewrite deref_app, copied_filter.
    f_equal. f_equal; [| rewrite <- app_assoc; reflexivity].
    replace (length h) with (length h + 0)%nat at 1 by lia.
    rewrite insert_app_r. reflexivity.
  - cbn [heap]. rewrite lookup_app_r by reflexivity.
    rewrite Nat.sub_diag. reflexivity.
Qed.

Lemma entries_frame (w : world) (h' : list (gmap string Item)) :
  wellformed w ->
  (forall l, l <> length (heap w) -> h' !! l = (heap w ++ [∅]) !! l) ->
  deref h' (items (self w)) = entries w.
Proof.
  unfold wellformed, entries. intros Hwf Hfr.
  destruct (items (self w)) as [l |]; [| reflexivity]. cbn [deref].
  rewrite Hfr by lia. rewrite lookup_app_l by exact Hwf. reflexivity.
Qed.

(** C8.  With no writer holding the lock, [Items] returns a map that did
    not exist before the call and is not the store's map; its entries are
    exactly the entries of the store at which [Expired] answers [false] at
    the time of the call, whether or not a sweep has run; the store and
    its entries are as they were.  Whatever the caller then stores in or
    deletes from the returned map, the store's entries stay the same. *)
Theorem Items_returns_a_copy_of_the_live_entries :
  forall (now : Z) (w : world),
    writer (mu (self w)) = false ->
    wellformed w ->
    exists (l' : loc) (w' : world),
      Items now w = Returns (Some l') w'
      /\ heap w !! l' = None
      /\ items (self w') <> Some l'
      /\ (forall (key : string) (item : Item),
            deref (heap w') (Some l') !! key = Some item
            <-> entries w !! key = Some item /\ Expired now item = false)
      /\ self w' = self w /\ entries w' = entries w
      /\ forall ms : list mutation,
           exists w'',
             mutate (Some l') ms w' = Returns tt w''
             /\ entries w'' = entries w /\ self w'' = self w.
Proof.
  intros now w Hw Hwf.
  exists (length (heap w)),
    (logged [RAcquire; RRelease]
       (set_heap (heap w ++ [filter (live now) (entries w)]) w)).
  assert (Hnew : (heap w ++ [filter (live now) (entries w)]) !! length (heap w)
                 = Some (filter (live now) (entries w))).
  { rewrite lookup_app_r by reflexivity. rewrite Nat.sub_diag. reflexivity. }
  assert (Hold : forall l, l <> length (heap w) ->
                   (heap w ++ [filter (live now) (entries w)]) !! l
                   = (heap w ++ [∅]) !! l).
  { intros l Hl. destruct (Nat.lt_ge_cases l (length (heap w))) as [Hlt | Hge].
    - rewrite !lookup_app_l by exact Hlt. reflexivity.
    - rewrite !lookup_ge_None_2; [reflexivity | |];
        rewrite length_app; cbn [length]; lia. }
  split; [apply Items_returns; exact Hw |].
  split; [apply lookup_ge_None_2; reflexivity |].
  split.
  { cbn [logged set_heap self]. unfold wellformed in Hwf.
    destruct (items (self w)) as [l |]; [| discriminate].
    intros [= ->]. lia. }
  split.
  { intros key item. cbn [logged set_heap heap deref]. rewrite Hnew.
    cbn [from_option id].
    rewrite map_lookup_filter_Some. unfold live. cbn [snd]. reflexivity. }
  split; [reflexivity |].
  split.
  { unfold entries at 1. cbn [logged set_heap heap self].
    apply entries_frame; [exact Hwf | exact Hold]. }
  intros ms.
  destruct (mutate_frame (length (heap w)) ms
              (logged [RAcquire; RRelease]
                 (set_heap (heap w ++ [filter (live now) (entries w)]) w)))
    as (h'' & [(H1 & H2 & H3) | (msg & w'' & H1 & H2)]).
  - eexists. split; [exact H1 |]. split; [| reflexivity].
    unfold entries at 1. cbn [logged set_heap heap self].
    apply entries_frame; [exact Hwf |].
    intros l Hl. rewrite H3 by exact Hl. cbn [logged set_heap heap].
    apply Hold. exact Hl.
  - exfalso. cbn [logged set_heap heap] in H2. rewrite Hnew in H2. discriminate.
Qed.

Lemma Items_returns_a_copy_of_the_live_entries_witness :
  exists (l' : loc) (w' : world),
    Items 10 sample = Returns (Some l') w'
    /\ heap sample !! l' = None
    /\ items (self w') <> Some l'
    /\ (forall (key : string) (item : Item),
          deref (heap w') (Some l') !! key = Some item
          <-> entries sample !! key = Some item /\ Expired 10 item = false)
    /\ self w' = self sample /\ entries w' = entries sample
    /\ forall ms : list mutation,
         exists w'',
           mutate (Some l') ms w' = Returns tt w''
           /\ entries w'' = entries sample /\ self w'' = self sample.
Proof.
  assert (Hwf : wellformed sample) by (unfold wellformed; cbn; lia).
  exact (Items_returns_a_copy_of_the_live_entries 10 sample eq_refl Hwf).
Defined.

(** *** [Increment] and [Decrement]: the arithmetic *)

Lemma wrapS_add_wrapS (w x n : Z) : wrapS w (x + wrapS w n) = wrapS w (x + n).
Proof.
  unfold wrapS. f_equal.
  replace (x + ((n + 2 ^ (w - 1)) mod 2 ^ w - 2 ^ (w - 1)) + 2 ^ (w - 1))
    with (x + (n + 2 ^ (w - 1)) mod 2 ^ w) by lia.
  rewrite Zplus_mod_idemp_r. f_equal. lia.
Qed.

Lemma wrapS_sub_wrapS (w x n : Z) : wrapS w (x - wrapS w n) = wrapS w (x - n).
Proof.
  unfold wrapS. f_equal.
  replace (x - ((n + 2 ^ (w - 1)) mod 2 ^ w - 2 ^ (w - 1)) + 2 ^ (w - 1))
    with ((x + 2 * 2 ^ (w - 1)) - (n + 2 ^ (w - 1)) mod 2 ^ w) by lia.
  rewrite Zminus_mod_idemp_r. f_equal. lia.
Qed.

Lemma wrapU_add_wrapU (w x n : Z) : wrapU w (x + wrapU w n) = wrapU w (x + n).
Proof. unfold wrapU. apply Zplus_mod_idemp_r. Qed.

Lemma wrapU_sub_wrapU (w x n : Z) : wrapU w (x - wrapU w n) = wrapU w (x - n).
Proof. unfold wrapU. apply Zminus_mod_idemp_r. Qed.

Lemma bits_pos (a : GOARCH) (k : kind) : 0 < bits a k.
Proof. destruct a, k; reflexivity. Qed.

Lemma wrap_range (a : GOARCH) (k : kind) (z : Z) :
  lo a k <= wrap a k z <= hi a k.
Proof.
  pose proof (bits_pos a k) as Hb. unfold lo, hi, wrap, wrapS, wrapU.
  assert (H2 : 2 ^ bits a k = 2 * 2 ^ (bits a k - 1)).
  { rewrite <- Z.pow_succ_r by lia. f_equal. lia. }
  assert (Hp : 0 < 2 ^ (bits a k - 1)) by (apply Z.pow_pos_nonneg; lia).
  destruct (signed k).
  - pose proof (Z.mod_pos_bound (z + 2 ^ (bits a k - 1)) (2 ^ bits a k)). lia.
  - pose proof (Z.mod_pos_bound z (2 ^ bits a k)). lia.
Qed.

(** The result of wrapping differs from its argument by a multiple of
    [2 ^ bits]. *)
Lemma wrap_congruent (a : GOARCH) (k : kind) (z : Z) :
  (wrap a k z - z) mod 2 ^ bits a k = 0.
Proof.
  pose proof (bits_pos a k) as Hb.
  assert (Hp : 0 < 2 ^ bits a k) by (apply Z.pow_pos_nonneg; lia).
  unfold wrap, wrapS, wrapU. destruct (signed k).
  - replace ((z + 2 ^ (bits a k - 1)) mod 2 ^ bits a k - 2 ^ (bits a k - 1) - z)
      with ((z + 2 ^ (bits a k - 1)) mod 2 ^ bits a k - (z + 2 ^ (bits a k - 1)))
      by lia.
    rewrite Zminus_mod_idemp_l. rewrite Z.sub_diag. apply Z.mod_0_l. lia.
  - rewrite Zminus_mod_idemp_l. rewrite Z.sub_diag. apply Z.mod_0_l. lia.
Qed.

Lemma wrap_add_wrap (a : GOARCH) (k : kind) (x n : Z) :
  wrap a k (x + wrap a k n) = wrap a k (x + n).
Proof.
  unfold wrap. destruct (signed k); [apply wrapS_add_wrapS | apply wrapU_add_wrapU].
Qed.

Lemma wrap_sub_wrap (a : GOARCH) (k : kind) (x n : Z) :
  wrap a k (x - wrap a k n) = wrap a k (x - n).
Proof.
  unfold wrap. destruct (signed k); [apply wrapS_sub_wrapS | apply wrapU_sub_wrapU].
Qed.

(** The type switch of [Increment] against the description by kinds. *)
Lemma increment_by_kind (a : GOARCH) (v : value) (n : Z) (k : kind) :
  kindOf v = Some k ->
  exists v',
    increment a v n = Some v'
    /\ kindOf v' = Some k
    /\ (forall x, integer v = Some x ->
          integer v' = Some (wrap a k (x + wrap a k n)))
    /\ (forall f, float v = Some f ->
          float v' = Some (fadd k f (fconv k n))).
Proof.
  intros Hk.
  destruct v; cbn [kindOf] in Hk; try discriminate; injection Hk as <-;
    (eexists; split; [reflexivity |]; split; [reflexivity |]; split;
     [intros x [= <-] | intros g [= <-]]);
    try reflexivity.
  cbn [increment integer]. unfold wrap. cbn [signed bits].
  rewrite wrapS_add_wrapS. reflexivity.
Qed.

Lemma decrement_by_kind (a : GOARCH) (v : value) (n : Z) (k : kind) :
  kindOf v = Some k ->
  exists v',
    decrement a v n = Some v'
    /\ kindOf v' = Some k
    /\ (forall x, integer v = Some x ->
          integer v' = Some (wrap a k (x - wrap a k n)))
    /\ (forall f, float v = Some f ->
          float v' = Some (fsub k f (fconv k n))).
Proof.
  intros Hk.
  destruct v; cbn [kindOf] in Hk; try discriminate; injection Hk as <-;
    (eexists; split; [reflexivity |]; split; [reflexivity |]; split;
     [intros x [= <-] | intros g [= <-]]);
    try reflexivity.
  cbn [decrement integer]. unfold wrap. cbn [signed bits].
  rewrite wrapS_sub_wrapS. reflexivity.
Qed.

Lemma increment_None (a : GOARCH) (v : value) (n : Z) :
  kindOf v = None <-> increment a v n = None.
Proof. destruct v; cbn; split; congruence. Qed.

Lemma decrement_None (a : GOARCH) (v : value) (n : Z) :
  kindOf v = None <-> decrement a v n = None.
Proof. destruct v; cbn; split; congruence. Qed.

Lemma Increment_returns (a : GOARCH) (key : string) (n now : Z) (item : Item)
    (v' : value) (w : world) :
  mu (self w) = unlocked ->
  entries w !! key = Some item ->
  Expired now item = false ->
  increment a (Object item) n = Some v' ->
  exists w',
    Increment a key n now w = Returns None w'
    /\ entries w' = <[key := mkItem v' (Expiration item)]> (entries w)
    /\ self w' = self w /\ trace w' = trace w ++ [Acquire; Release].
Proof.
  intros Hmu Hk He Hv.
  destruct (entries_Some_allocated w key item Hk) as (l & m & Hi & Hl).
  exists (logged [Acquire; Release]
            (set_heap (<[l := <[key := mkItem v' (Expiration item)]> m]> (heap w)) w)).
  split; [| split; [| split; reflexivity]].
  - destruct w as [h [dE i mu0 o] cs]. cbn [self mu items heap] in *. subst mu0 i.
    unfold Increment. go. rewrite Hk, He, Hv. go. rewrite Hl. f_equal. same_world.
  - rewrite entries_logged. unfold entries. cbn [set_heap heap self].
    rewrite Hi, (deref_insert _ _ _ _ Hl). cbn [deref]. rewrite Hl. reflexivity.
Qed.

Lemma Decrement_returns (a : GOARCH) (key : string) (n now : Z) (item : Item)
    (v' : value) (w : world) :
  mu (self w) = unlocked ->
  entries w !! key = Some item ->
  Expired now item = false ->
  decrement a (Object item) n = Some v' ->
  exists w',
    Decrement a key n now w = Returns None w'
    /\ entries w' = <[key := mkItem v' (Expiration item)]> (entries w)
    /\ self w' = self w /\ trace w' = trace w ++ [Acquire; Release].
Proof.
  intros Hmu Hk He Hv.
  destruct (entries_Some_allocated w key item Hk) as (l & m & Hi & Hl).
  exists (logged [Acquire; Release]
            (set_heap (<[l := <[key := mkItem v' (Expiration item)]> m]> (heap w)) w)).
  split; [| split; [| split; reflexivity]].
  - destruct w as [h [dE i mu0 o] cs]. cbn [self mu items heap] in *. subst mu0 i.
    unfold Decrement. go. rewrite Hk, He, Hv. go. rewrite Hl. f_equal. same_world.
  - rewrite entries_logged. unfold entries. cbn [set_heap heap self].
    rewrite Hi, (deref_insert _ _ _ _ Hl). cbn [deref]. rewrite Hl. reflexivity.
Qed.

(** A nil error from [Increment] or [Decrement] means: the lock was free,
    the key had an entry that was not expired, and its value was numeric. *)
Lemma Increment_success (a : GOARCH) (key : string) (n now : Z) (w w' : world) :
  Increment a key n now w = Returns None w' ->
  mu (self w) = unlocked
  /\ exists item v',
       entries w !! key = Some item /\ Expired now item = false
       /\ increment a (Object item) n = Some v'.
Proof.
  destruct w as [h [dE i [[|] [| rd]] o] cs]; intros H; unfold Increment in H; go;
    try discriminate.
  paths H; try discriminate.
  split; [reflexivity |]. eauto.
Qed.

Lemma Decrement_success (a : GOARCH) (key : string) (n now : Z) (w w' : world) :
  Decrement a key n now w = Returns None w' ->
  mu (self w) = unlocked
  /\ exists item v',
       entries w !! key = Some item /\ Expired now item = false
       /\ decrement a (Object item) n = Some v'.
Proof.
  destruct w as [h [dE i [[|] [| rd]] o] cs]; intros H; unfold Decrement in H; go;
    try discriminate.
  paths H; try discriminate.
  split; [reflexivity |]. eauto.
Qed.

Lemma kindOf_increment (a : GOARCH) (v v' : value) (n : Z) :
  increment a v n = Some v' -> exists k, kindOf v = Some k.
Proof. destruct v; cbn; intros H; try discriminate; eauto. Qed.

Lemma kindOf_decrement (a : GOARCH) (v v' : value) (n : Z) :
  decrement a v n = Some v' -> exists k, kindOf v = Some k.
Proof. destruct v; cbn; intros H; try discriminate; eauto. Qed.

(** C5.  Whenever [Increment] returns the nil error, the key had an
    entry holding a value of some numeric kind [k], and the call replaced
    it by an entry with the same expiration and a value of the same kind
    [k]; for an integer kind the new value is the old one plus [n]
    converted to [k], wrapped to the width of [k] (so it lies in the range
    of [k] and differs from the exact sum by a multiple of [2 ^ bits]);
    for a floating kind it is the sum in that kind of the old value and
    [n] converted to it.  The same holds for [Decrement] with the
    difference.  Both acquire the lock once and release it once.  On a
    store whose lock is free both do return the nil error for a key whose
    entry is not expired and holds a numeric value. *)
Theorem Increment_Decrement_in_kind :
  forall (a : GOARCH) (key : string) (n now : Z) (w : world),
    (forall w' : world,
       Increment a key n now w = Returns None w' ->
       exists (item : Item) (k : kind) (v' : value),
         entries w !! key = Some item
         /\ kindOf (Object item) = Some k
         /\ entries w' = <[key := mkItem v' (Expiration item)]> (entries w)
         /\ kindOf v' = Some k
         /\ (forall x, integer (Object item) = Some x ->
               integer v' = Some (wrap a k (x + wrap a k n))
               /\ lo a k <= wrap a k (x + wrap a k n) <= hi a k
               /\ (wrap a k (x + wrap a k n) - (x + n)) mod 2 ^ bits a k = 0)
         /\ (forall f, float (Object item) = Some f ->
               float v' = Some (fadd k f (fconv k n)))
         /\ mu (self w') = unlocked
         /\ trace w' = trace w ++ [Acquire; Release])
    /\ (forall w' : world,
          Decrement a key n now w = Returns None w' ->
          exists (item : Item) (k : kind) (v' : value),
            entries w !! key = Some item
            /\ kindOf (Object item) = Some k
            /\ entries w' = <[key := mkItem v' (Expiration item)]> (entries w)
            /\ kindOf v' = Some k
            /\ (forall x, integer (Object item) = Some x ->
                  integer v' = Some (wrap a k (x - wrap a k n))
                  /\ lo a k <= wrap a k (x - wrap a k n) <= hi a k
                  /\ (wrap a k (x - wrap a k n) - (x - n)) mod 2 ^ bits a k = 0)
            /\ (forall f, float (Object item) = Some f ->
                  float v' = Some (fsub k f (fconv k n)))
            /\ mu (self w') = unlocked
            /\ trace w' = trace w ++ [Acquire; Release])
    /\ (forall (item : Item) (k : kind),
          mu (self w) = unlocked ->
          entries w !! key = Some item ->
          Expired now item = false ->
          kindOf (Object item) = Some k ->
          (exists w', Increment a key n now w = Returns None w')
          /\ (exists w', Decrement a key n now w = Returns None w')).
Proof.
  intros a key n now w. split; [| split].
  - intros w' HI.
    destruct (Increment_success a key n now w w' HI) as (Hmu & item & v' & Hk & He & Hv).
    destruct (kindOf_increment a _ _ n Hv) as (k & Hkind).
    destruct (increment_by_kind a (Object item) n k Hkind)
      as (v'' & Hv' & Hk' & Hint & Hfl).
    rewrite Hv in Hv'. injection Hv' as <-.
    destruct (Increment_returns a key n now item v' w Hmu Hk He Hv)
      as (w'' & HI' & Hent & Hself & Htr).
    rewrite HI in HI'. injection HI' as <-.
    exists item, k, v'. split; [exact Hk |]. split; [exact Hkind |].
    split; [exact Hent |]. split; [exact Hk' |].
    split; [| split; [exact Hfl | split; [congruence | exact Htr]]].
    intros x Hx. split; [apply Hint; exact Hx |].
    split; [apply wrap_range |].
    rewrite wrap_add_wrap. apply wrap_congruent.
  - intros w' HI.
    destruct (Decrement_success a key n now w w' HI) as (Hmu & item & v' & Hk & He & Hv).
    destruct (kindOf_decrement a _ _ n Hv) as (k & Hkind).
    destruct (decrement_by_kind a (Object item) n k Hkind)
      as (v'' & Hv' & Hk' & Hint & Hfl).
    rewrite Hv in Hv'. injection Hv' as <-.
    destruct (Decrement_returns a key n now item v' w Hmu Hk He Hv)
      as (w'' & HI' & Hent & Hself & Htr).
    rewrite HI in HI'. injection HI' as <-.
    exists item, k, v'. split; [exact Hk |]. split; [exact Hkind |].
    split; [exact Hent |]. split; [exact Hk' |].
    split; [| split; [exact Hfl | split; [congruence | exact Htr]]].
    intros x Hx. split; [apply Hint; exact Hx |].
    split; [apply wrap_range |].
    rewrite wrap_sub_wrap. apply wrap_congruent.
  - intros item k Hmu Hk He Hkind. split.
    + destruct (increment_by_kind a (Object item) n k Hkind) as (v' & Hv & _).
      destruct (Increment_returns a key n now item v' w Hmu Hk He Hv) as (w' & H & _).
      eauto.
    + destruct (decrement_by_kind a (Object item) n k Hkind) as (v' & Hv & _).
      destruct (Decrement_returns a key n now item v' w Hmu Hk He Hv) as (w' & H & _).
      eauto.
Qed.

(** An [int8] at 127 incremented by 1 wraps to -128 and stays an [int8]. *)
Lemma Increment_Decrement_in_kind_witness :
  exists (w' : world) (v' : value),
    Increment Arch64 "n" 1 100 counters = Returns None w'
    /\ entries w' = <["n" := mkItem v' 0]> (entries counters)
    /\ kindOf v' = Some KInt8
    /\ integer v' = Some (-128).
Proof.
  destruct (Increment_Decrement_in_kind Arch64 "n" 1 100 counters) as (HI & _ & HE).
  destruct (proj1 (HE (mkItem (VInt8 127) 0) KInt8 eq_refl eq_refl eq_refl eq_refl))
    as (w' & Hw').
  destruct (HI w' Hw') as (item & k & v' & Hk & Hkind & Hent & Hk' & Hint & _).
  injection Hk as <-. injection Hkind as <-.
  exists w', v'. split; [exact Hw' |]. split; [exact Hent |]. split; [exact Hk' |].
  exact (proj1 (Hint 127 eq_refl)).
Defined.

(** *** [get], [Add] and [Replace] *)

Lemma get_returns (key : string) (now : Z) (w : world) :
  get key now w
  = Returns (match entries w !! key with
             | Some item => if stale now item then (VNil, false) else (Object item, true)
             | None => (VNil, false)
             end) w.
Proof.
  unfold get, stale. go.
  destruct (deref (heap w) (items (self w)) !! key) as [item |]; [| reflexivity].
  destruct (Expiration item >? 0); [destruct (now >? Expiration item) |]; reflexivity.
Qed.

Lemma get_found (key : string) (now : Z) (w : world) :
  exists r, get key now w = Returns r w /\ snd r = found now (entries w !! key).
Proof.
  eexists. split; [apply get_returns |]. unfold found.
  destruct (entries w !! key) as [item |]; [| reflexivity].
  destruct (stale now item); reflexivity.
Qed.

Lemma found_false (now : Z) (o : option Item) :
  found now o = false
  <-> o = None \/ exists item, o = Some item /\ 0 < Expiration item < now.
Proof.
  unfold found. destruct o as [item |].
  - rewrite negb_false_iff, stale_true. split.
    + intros H. right. exists item. auto.
    + intros [H | (item' & [= <-] & H)]; [discriminate | exact H].
  - split; [auto | reflexivity].
Qed.

Lemma set_returns (key : string) (val : value) (d now : Z) (w : world)
    (l : loc) (m : gmap string Item) :
  items (self w) = Some l ->
  heap w !! l = Some m ->
  set key val d now w
  = Returns tt
      (set_heap (<[l := <[key := mkItem val (expiration (self w) d now)]> m]> (heap w)) w).
Proof.
  intros Hi Hl. unfold set, expiration. go. rewrite Hi, Hl. reflexivity.
Qed.

Lemma Add_exists (key : string) (val : value) (d now : Z) (w : world) :
  mu (self w) = unlocked ->
  found now (entries w !! key) = true ->
  Add key val d now w
  = Returns (Some (errAlreadyExists key)) (logged [Acquire; Release] w).
Proof.
  intros Hmu Hf. unfold Add. unfold bind at 1. unfold Lock. rewrite Hmu.
  cbn [unlocked writer readers orb negb Nat.eqb].
  unfold bind at 1.
  match goal with |- context [get key now ?w1] =>
    destruct (get_found key now w1) as (r & -> & Hr) end.
  rewrite entries_logged, entries_set_mu, Hf in Hr. rewrite Hr.
  unfold bind, Unlock, ret. cbn [logged set_mu self mu writer readers].
  f_equal. clear - Hmu. same_world.
Qed.

Lemma Add_inserts (key : string) (val : value) (d now : Z) (w : world) :
  mu (self w) = unlocked ->
  allocated w ->
  found now (entries w !! key) = false ->
  exists w',
    Add key val d now w = Returns None w'
    /\ entries w' = <[key := mkItem val (expiration (self w) d now)]> (entries w)
    /\ self w' = self w
    /\ trace w' = trace w ++ [Acquire; Release].
Proof.
  intros Hmu (l & m & Hi & Hl) Hf.
  exists (logged [Acquire; Release]
            (set_heap (<[l := <[key := mkItem val (expiration (self w) d now)]> m]>
                         (heap w)) w)).
  split; [| split; [| split; reflexivity]].
  - unfold Add. unfold bind at 1. unfold Lock. rewrite Hmu.
    cbn [unlocked writer readers orb negb Nat.eqb].
    unfold bind at 1.
    match goal with |- context [get key now ?w1] =>
      destruct (get_found key now w1) as (r & -> & Hr) end.
    rewrite entries_logged, entries_set_mu, Hf in Hr. rewrite Hr.
    unfold bind at 1.
    rewrite (set_returns key val d now _ l m) by assumption.
    unfold bind, Unlock, ret. cbn [logged set_mu set_heap self mu writer readers heap].
    f_equal. clear - Hmu. same_world.
  - rewrite entries_logged. unfold entries. cbn [set_heap heap self].
    rewrite Hi, (deref_insert _ _ _ _ Hl). cbn [deref]. rewrite Hl. reflexivity.
Qed.

Lemma Replace_missing (key : string) (val : value) (d now : Z) (w : world) :
  mu (self w) = unlocked ->
  found now (entries w !! key) = false ->
  Replace key val d now w
  = Returns (Some (errDoNotExists key)) (logged [Acquire; Release] w).
Proof.
  intros Hmu Hf. unfold Replace. unfold bind at 1. unfold Lock. rewrite Hmu.
  cbn [unlocked writer readers orb negb Nat.eqb].
  unfold bind at 1.
  match goal with |- context [get key now ?w1] =>
    destruct (get_found key now w1) as (r & -> & Hr) end.
  rewrite entries_logged, entries_set_mu, Hf in Hr. rewrite Hr.
  unfold bind, Unlock, ret. cbn [negb logged set_mu self mu writer readers].
  f_equal. clear - Hmu. same_world.
Qed.

Lemma Replace_replaces (key : string) (val : value) (d now : Z) (w : world) :
  mu (self w) = unlocked ->
  found now (entries w !! key) = true ->
  exists w',
    Replace key val d now w = Returns None w'
    /\ entries w' = <[key := mkItem val (expiration (self w) d now)]> (entries w)
    /\ self w' = self w
    /\ trace w' = trace w ++ [Acquire; Release].
Proof.
  intros Hmu Hf.
  assert (Hal : allocated w).
  { unfold found in Hf. destruct (entries w !! key) as [item |] eqn:E;
      [| discriminate]. exact (entries_Some_allocated w key item E). }
  destruct Hal as (l & m & Hi & Hl).
  exists (logged [Acquire; Release]
            (set_heap (<[l := <[key := mkItem val (expiration (self w) d now)]> m]>
                         (heap w)) w)).
  split; [| split; [| split; reflexivity]].
  - unfold Replace. unfold bind at 1. unfold Lock. rewrite Hmu.
    cbn [unlocked writer readers orb negb Nat.eqb].
    unfold bind at 1.
    match goal with |- context [get key now ?w1] =>
      destruct (get_found key now w1) as (r & -> & Hr) end.
    rewrite entries_logged, entries_set_mu, Hf in Hr. rewrite Hr.
    cbn [negb]. unfold bind at 1.
    rewrite (set_returns key val d now _ l m) by assumption.
    unfold bind, Unlock, ret. cbn [logged set_mu set_heap self mu writer readers heap].
    f_equal. clear - Hmu. same_world.
  - rewrite entries_logged. unfold entries. cbn [set_heap heap self].
    rewrite Hi, (deref_insert _ _ _ _ Hl). cbn [deref]. rewrite Hl. reflexivity.
Qed.

(** What [Add] does on a store whose lock is free and whose map
    exists: it inserts the entry exactly when the key has no entry or
    its entry has a positive expiration that the clock has passed; then it
    stores the value with the expiration [Set] would give it.  Otherwise it
    returns the "already exists" error and heap and store are as before.
    Either way the trace grows by one acquisition and one release of the
    lock.  For an entry whose expiration is not negative, "positive and
    passed" is what [Expired] says.  After a successful [Add], while the
    new entry is not expired, a second [Add] of the key returns the error
    and [Get] returns the first value. *)
Theorem Add_inserts_iff_absent_or_stale :
  forall (key : string) (val : value) (d now : Z) (w : world),
    mu (self w) = unlocked ->
    allocated w ->
    ((exists w', Add key val d now w = Returns None w')
     <-> (entries w !! key = None
          \/ exists item, entries w !! key = Some item /\ 0 < Expiration item < now))
    /\ ((entries w !! key = None
         \/ exists item, entries w !! key = Some item /\ 0 < Expiration item < now) ->
        exists w',
          Add key val d now w = Returns None w'
          /\ entries w' = <[key := mkItem val (expiration (self w) d now)]> (entries w)
          /\ trace w' = trace w ++ [Acquire; Release])
    /\ (~ (entries w !! key = None
           \/ exists item, entries w !! key = Some item /\ 0 < Expiration item < now) ->
        Add key val d now w
        = Returns (Some (errAlreadyExists key)) (logged [Acquire; Release] w))
    /\ (forall item, entries w !! key = Some item -> 0 <= Expiration item ->
          (0 < Expiration item < now <-> Expired now item = true))
    /\ (forall w1, Add key val d now w = Returns None w1 ->
          forall (t : Z) (v2 : value) (d2 : Z),
            Expired t (mkItem val (expiration (self w) d now)) = false ->
            Add key v2 d2 t w1
            = Returns (Some (errAlreadyExists key)) (logged [Acquire; Release] w1)
            /\ Get key t (logged [Acquire; Release] w1)
               = Returns (val, true)
                   (logged [RAcquire; RRelease] (logged [Acquire; Release] w1))).
Proof.
  intros key val d now w Hmu Hal.
  pose proof (found_false now (entries w !! key)) as Hff.
  split; [| split; [| split; [| split]]].
  - split.
    + intros (w' & HA). apply Hff.
      destruct (found now (entries w !! key)) eqn:Hf; [| reflexivity].
      rewrite (Add_exists key val d now w Hmu Hf) in HA. discriminate.
    + intros H. apply Hff in H.
      destruct (Add_inserts key val d now w Hmu Hal H) as (w' & HA & _). eauto.
  - intros H. apply Hff in H.
    destruct (Add_inserts key val d now w Hmu Hal H) as (w' & HA & He & _ & Ht). eauto.
  - intros H. apply Add_exists; [exact Hmu |].
    destruct (found now (entries w !! key)) eqn:Hf; [reflexivity |].
    exfalso. apply H, Hff. reflexivity.
  - intros item _ Hnn. rewrite <- stale_true. rewrite (stale_nonneg now item Hnn).
    reflexivity.
  - intros w1 HA t v2 d2 Hlive.
    assert (Hf : found now (entries w !! key) = false).
    { destruct (found now (entries w !! key)) eqn:Hf; [| reflexivity].
      rewrite (Add_exists key val d now w Hmu Hf) in HA. discriminate. }
    destruct (Add_inserts key val d now w Hmu Hal Hf) as (w' & HA' & He & Hs & _).
    rewrite HA' in HA. injection HA as ->.
    assert (Hk : entries w1 !! key = Some (mkItem val (expiration (self w) d now))).
    { rewrite He. apply lookup_insert_eq. }
    assert (Hmu1 : mu (self w1) = unlocked) by (rewrite Hs; exact Hmu).
    split.
    + apply Add_exists; [exact Hmu1 |]. rewrite Hk. unfold found.
      destruct (stale t _) eqn:St; [| reflexivity].
      apply stale_Expired in St. congruence.
    + rewrite Get_returns by (cbn [logged self]; rewrite Hmu1; reflexivity).
      rewrite entries_logged, Hk. unfold answer. rewrite Hlive. reflexivity.
Qed.

Lemma Add_inserts_iff_absent_or_stale_witness :
  exists w',
    Add "k" (VInt 1) 5 100 (NewCache 0 0) = Returns None w'
    /\ entries w'
       = <["k" := mkItem (VInt 1) (expiration (self (NewCache 0 0)) 5 100)]>
           (entries (NewCache 0 0))
    /\ trace w' = trace (NewCache 0 0) ++ [Acquire; Release].
Proof.
  assert (Hal : allocated (NewCache 0 0)).
  { exists 0%nat, ∅. split; reflexivity. }
  apply (proj1 (proj2 (Add_inserts_iff_absent_or_stale "k" (VInt 1) 5 100
                         (NewCache 0 0) eq_refl Hal))).
  left. reflexivity.
Defined.

(** An expiry instant past the greatest [int64] wraps to a negative
    one. *)
Lemma UnixNanoAfter_overflow (now d : Z) :
  0 <= now < 2 ^ 63 -> 0 < d < 2 ^ 63 -> 2 ^ 63 <= now + d ->
  UnixNanoAfter now d = now + d - 2 ^ 64 /\ now + d - 2 ^ 64 < 0.
Proof.
  intros Hn Hd Ho. unfold UnixNanoAfter, wrapS.
  change (2 ^ (64 - 1)) with 9223372036854775808 in *.
  change (2 ^ 64) with 18446744073709551616 in *.
  change (2 ^ 63) with 9223372036854775808 in *.
  replace (now + d + 9223372036854775808)
    with ((now + d - 9223372036854775808) + 1 * 18446744073709551616) by lia.
  rewrite Z.mod_add by lia. rewrite Z.mod_small by lia. lia.
Qed.

(** C4 (fails on the code).  [Add] decides through [get], which tests
    [Expiration > 0]; [Get], [Items], [Increment] and [Decrement] decide
    through [Expired], which tests [Expiration != 0].  On an entry whose
    expiration is negative the two disagree: the entry is expired, [Get]
    does not find the key, and yet [Add] returns the "already exists"
    error and inserts nothing; so [Add] does not insert exactly when the
    key is absent or its entry expired.  Such an entry is what [Set]
    stores for a duration whose expiry instant overflows [int64] (and what
    [NewFrom] takes over from a map that holds one). *)
Theorem Add_refuses_a_key_that_Get_does_not_find :
  (forall (key : string) (val : value) (d now : Z) (item : Item) (w : world),
      mu (self w) = unlocked ->
      entries w !! key = Some item ->
      Expiration item < 0 ->
      0 <= now ->
      Expired now item = true
      /\ Get key now w = Returns (VNil, false) (logged [RAcquire; RRelease] w)
      /\ Add key val d now w
         = Returns (Some (errAlreadyExists key)) (logged [Acquire; Release] w)
      /\ ~ ((exists w', Add key val d now w = Returns None w')
            <-> (entries w !! key = None
                 \/ exists item', entries w !! key = Some item'
                                  /\ Expired now item' = true)))
  /\ (forall (key : string) (val : value) (ttl now : Z) (w : world),
        mu (self w) = unlocked ->
        allocated w ->
        0 <= now < 2 ^ 63 ->
        0 < ttl < 2 ^ 63 ->
        2 ^ 63 <= now + ttl ->
        exists w',
          Set_ key val ttl now w = Returns tt w'
          /\ entries w' !! key = Some (mkItem val (now + ttl - 2 ^ 64))
          /\ now + ttl - 2 ^ 64 < 0
          /\ mu (self w') = unlocked).
Proof.
  split.
  - intros key val d now item w Hmu Hk Hneg Hnow.
    assert (He : Expired now item = true) by (apply Expired_true; lia).
    assert (HA : Add key val d now w
                 = Returns (Some (errAlreadyExists key)) (logged [Acquire; Release] w)).
    { apply Add_exists; [exact Hmu |]. rewrite Hk. unfold found.
      destruct (stale now item) eqn:St; [| reflexivity].
      apply stale_true in St. lia. }
    split; [exact He |]. split; [| split; [exact HA |]].
    + rewrite Get_returns by (rewrite Hmu; reflexivity).
      rewrite Hk. unfold answer. rewrite He. reflexivity.
    + intros [_ H]. destruct H as (w' & Hw').
      * right. exists item. split; [exact Hk | exact He].
      * rewrite HA in Hw'. discriminate.
  - intros key val ttl now w Hmu Hal Hnow Httl Hover.
    destruct (Set_returns key val ttl now w Hmu Hal) as (w' & HS & He & Hs & _).
    destruct (UnixNanoAfter_overflow now ttl Hnow Httl Hover) as (Hu & Hlt).
    assert (Hexp : expiration (self w) ttl now = now + ttl - 2 ^ 64).
    { unfold expiration, DefaultExpiration.
      destruct (Z.eqb_spec ttl 0) as [E | _]; [lia |].
      destruct (ttl >? 0) eqn:G; [exact Hu |]. apply gtb_false in G. lia. }
    exists w'. split; [exact HS |].
    split; [rewrite He, Hexp; apply lookup_insert_eq |].
    split; [exact Hlt | rewrite Hs; exact Hmu].
Qed.

Lemma Add_refuses_a_key_that_Get_does_not_find_witness :
  Expired 100 (mkItem (VInt 1) (-1)) = true
  /\ Get "k" 100 legacy = Returns (VNil, false) (logged [RAcquire; RRelease] legacy)
  /\ Add "k" (VInt 2) NoExpiration 100 legacy
     = Returns (Some (errAlreadyExists "k")) (logged [Acquire; Release] legacy)
  /\ ~ ((exists w', Add "k" (VInt 2) NoExpiration 100 legacy = Returns None w')
        <-> (entries legacy !! "k" = None
             \/ exists item', entries legacy !! "k" = Some item'
                              /\ Expired 100 item' = true)).
Proof.
  apply (proj1 Add_refuses_a_key_that_Get_does_not_find "k" (VInt 2) NoExpiration
           100 (mkItem (VInt 1) (-1)) legacy); [reflexivity | reflexivity | | ];
    cbn [Expiration]; lia.
Defined.

(** *** Failed operations *)

Lemma harmless_Add (key : string) (val : value) (d now : Z) :
  harmless (Add key val d now).
Proof.
  intros [h [dE i [wr rd] o] cs] e w' H. unfold Add, get, set in H. go.
  paths H; try discriminate; injection H as _ <-; split; reflexivity.
Qed.

Lemma harmless_Replace (key : string) (val : value) (d now : Z) :
  harmless (Replace key val d now).
Proof.
  intros [h [dE i [wr rd] o] cs] e w' H. unfold Replace, get, set in H. go.
  paths H; try discriminate; injection H as _ <-; split; reflexivity.
Qed.

Lemma harmless_Increment (a : GOARCH) (key : string) (n now : Z) :
  harmless (Increment a key n now).
Proof.
  intros [h [dE i [wr rd] o] cs] e w' H. unfold Increment in H. go.
  paths H; try discriminate; injection H as _ <-; split; reflexivity.
Qed.

Lemma harmless_Decrement (a : GOARCH) (key : string) (n now : Z) :
  harmless (Decrement a key n now).
Proof.
  intros [h [dE i [wr rd] o] cs] e w' H. unfold Decrement in H. go.
  paths H; try discriminate; injection H as _ <-; split; reflexivity.
Qed.

Lemma entries_harmless (w w' : world) :
  heap w' = heap w /\ items (self w') = items (self w) -> entries w' = entries w.
Proof. intros [Hh Hi]. unfold entries. rewrite Hh, Hi. reflexivity. Qed.

Lemma Replace_total (key : string) (val : value) (d now : Z) (w : world) :
  mu (self w) = unlocked -> exists e w', Replace key val d now w = Returns e w'.
Proof.
  intros Hmu. destruct (found now (entries w !! key)) eqn:Hf.
  - destruct (Replace_replaces key val d now w Hmu Hf) as (w' & H & _). eauto.
  - rewrite (Replace_missing key val d now w Hmu Hf). eauto.
Qed.

Lemma Increment_total (a : GOARCH) (key : string) (n now : Z) (w : world) :
  mu (self w) = unlocked -> exists e w', Increment a key n now w = Returns e w'.
Proof.
  intros Hmu. destruct (entries w !! key) as [item |] eqn:Hk.
  - destruct (Expired now item) eqn:He.
    + rewrite Increment_missing; [eauto | exact Hmu |].
      rewrite Hk. unfold answer. rewrite He. reflexivity.
    + destruct (increment a (Object item) n) as [v' |] eqn:Hv.
      * destruct (Increment_returns a key n now item v' w Hmu Hk He Hv)
          as (w' & H & _). eauto.
      * apply increment_None in Hv.
        rewrite (Increment_not_numeric a key n now item w Hmu Hk He Hv). eauto.
  - rewrite Increment_missing; [eauto | exact Hmu |]. rewrite Hk. reflexivity.
Qed.

Lemma Decrement_total (a : GOARCH) (key : string) (n now : Z) (w : world) :
  mu (self w) = unlocked -> exists e w', Decrement a key n now w = Returns e w'.
Proof.
  intros Hmu. destruct (entries w !! key) as [item |] eqn:Hk.
  - destruct (Expired now item) eqn:He.
    + rewrite Decrement_missing; [eauto | exact Hmu |].
      rewrite Hk. unfold answer. rewrite He. reflexivity.
    + destruct (decrement a (Object item) n) as [v' |] eqn:Hv.
      * destruct (Decrement_returns a key n now item v' w Hmu Hk He Hv)
          as (w' & H & _). eauto.
      * apply decrement_None in Hv.
        rewrite (Decrement_not_numeric a key n now item w Hmu Hk He Hv). eauto.
  - rewrite Decrement_missing; [eauto | exact Hmu |]. rewrite Hk. reflexivity.
Qed.

(** From a free lock, [Decrement] returns on every path after one
    acquisition and one release; [Increment] returns an error only with
    one acquisition and no release. *)
Lemma Decrement_releases_once (a : GOARCH) (key : string) (n now : Z) (w : world) :
  mu (self w) = unlocked ->
  exists e w',
    Decrement a key n now w = Returns e w'
    /\ trace w' = trace w ++ [Acquire; Release]
    /\ mu (self w') = unlocked.
Proof.
  intros Hmu. destruct (entries w !! key) as [item |] eqn:Hk.
  - destruct (Expired now item) eqn:He.
    + rewrite Decrement_missing; [| exact Hmu |].
      * eexists _, _. split; [reflexivity |]. split; [reflexivity | exact Hmu].
      * rewrite Hk. unfold answer. rewrite He. reflexivity.
    + destruct (decrement a (Object item) n) as [v' |] eqn:Hv.
      * destruct (Decrement_returns a key n now item v' w Hmu Hk He Hv)
          as (w' & H & _ & Hs & Ht).
        exists None, w'. split; [exact H |]. split; [exact Ht | congruence].
      * apply decrement_None in Hv.
        rewrite (Decrement_not_numeric a key n now item w Hmu Hk He Hv).
        eexists _, _. split; [reflexivity |]. split; [reflexivity | exact Hmu].
  - rewrite Decrement_missing; [| exact Hmu | rewrite Hk; reflexivity].
    eexists _, _. split; [reflexivity |]. split; [reflexivity | exact Hmu].
Qed.

Lemma Increment_error_holds_lock (a : GOARCH) (key : string) (n now : Z)
    (e : string) (w w' : world) :
  mu (self w) = unlocked ->
  Increment a key n now w = Returns (Some e) w' ->
  w' = holding w.
Proof.
  intros Hmu H. destruct (entries w !! key) as [item |] eqn:Hk.
  - destruct (Expired now item) eqn:He.
    + rewrite Increment_missing in H; [congruence | exact Hmu |].
      rewrite Hk. unfold answer. rewrite He. reflexivity.
    + destruct (increment a (Object item) n) as [v' |] eqn:Hv.
      * destruct (Increment_returns a key n now item v' w Hmu Hk He Hv)
          as (w'' & H' & _). congruence.
      * apply increment_None in Hv.
        rewrite (Increment_not_numeric a key n now item w Hmu Hk He Hv) in H.
        congruence.
  - rewrite Increment_missing in H; [congruence | exact Hmu |].
    rewrite Hk. reflexivity.
Qed.

(** C1 (fails on the code).  From a free lock, [Increment] of a key that
    has no entry, or an expired one, or one whose value is not numeric,
    returns its error after one [Acquire] and no [Release]: the write lock
    is still held, and every later [Increment] blocks for ever.  So on a
    new store two [Increment]s of a missing key in a row end blocked.
    [Decrement] returns on every path after one [Acquire] and one
    [Release], with the lock free. *)
Theorem Increment_missing_key_leaves_lock_held :
  (forall (a : GOARCH) (key : string) (n now : Z) (w : world),
     mu (self w) = unlocked ->
     (entries w !! key = None
      \/ exists item, entries w !! key = Some item
                      /\ (Expired now item = true \/ kindOf (Object item) = None)) ->
     exists e : string,
       Increment a key n now w = Returns (Some e) (holding w)
       /\ trace (holding w) = trace w ++ [Acquire]
       /\ writer (mu (self (holding w))) = true
       /\ forall (a' : GOARCH) (key' : string) (n' now' : Z),
            Increment a' key' n' now' (holding w) = Blocks (holding w))
  /\ (forall (a : GOARCH) (key : string) (n now d interval : Z),
        (Increment a key n now ;; Increment a key n now) (NewCache d interval)
        = Blocks (holding (NewCache d interval)))
  /\ (forall (a : GOARCH) (key : string) (n now : Z) (w : world),
        mu (self w) = unlocked ->
        exists e w',
          Decrement a key n now w = Returns e w'
          /\ trace w' = trace w ++ [Acquire; Release]
          /\ mu (self w') = unlocked).
Proof.
  split; [| split].
  - intros a key n now w Hmu Hcase.
    assert (HB : forall a' key' n' now',
               Increment a' key' n' now' (holding w) = Blocks (holding w)).
    { intros. apply Increment_held. reflexivity. }
    destruct Hcase as [Hk | (item & Hk & Hcase)].
    + exists (errNotFound key). split; [| split; [reflexivity | split; [reflexivity | exact HB]]].
      apply Increment_missing; [exact Hmu |]. rewrite Hk. reflexivity.
    + destruct (Expired now item) eqn:He.
      * exists (errNotFound key).
        split; [| split; [reflexivity | split; [reflexivity | exact HB]]].
        apply Increment_missing; [exact Hmu |]. rewrite Hk. unfold answer.
        rewrite He. reflexivity.
      * destruct Hcase as [Hc | Hc]; [discriminate |].
        exists (errNotNumeric key).
        split; [| split; [reflexivity | split; [reflexivity | exact HB]]].
        apply (Increment_not_numeric a key n now item); assumption.
  - intros a key n now d interval. unfold bind.
    rewrite (Increment_missing a key n now (NewCache d interval)) by reflexivity.
    apply Increment_held. reflexivity.
  - intros a key n now w Hmu. apply Decrement_releases_once. exact Hmu.
Qed.

Lemma Increment_missing_key_leaves_lock_held_witness :
  exists e : string,
    Increment Arch64 "s" 1 100 counters = Returns (Some e) (holding counters)
    /\ trace (holding counters) = trace counters ++ [Acquire]
    /\ writer (mu (self (holding counters))) = true
    /\ forall (a' : GOARCH) (key' : string) (n' now' : Z),
         Increment a' key' n' now' (holding counters) = Blocks (holding counters).
Proof.
  apply (proj1 Increment_missing_key_leaves_lock_held Arch64 "s" 1 100 counters eq_refl).
  right. exists (mkItem (VString "x") 0). split; [reflexivity |]. right. reflexivity.
Defined.

(** Operations that return an error.  On a store whose lock is free:
    [Replace] of a key that has no entry, or whose entry has a positive
    expiration that the
    clock has passed, returns the "do not exists" error with heap and
    store as before (for an entry whose expiration is not negative,
    "positive and passed" is what [Expired] says); [Increment] and
    [Decrement] of a key whose entry is not expired and holds a value that
    is not numeric return their "not numeric" errors and leave the
    entries as they were.  Whenever [Add], [Replace], [Increment] or
    [Decrement] returns an error, every map of the heap is as before.
    [Replace], [Increment] and [Decrement] always return: no panic, no
    fatal error. *)
Theorem failed_operations_change_nothing :
  forall (a : GOARCH) (key : string) (val : value) (d n now : Z) (w : world),
    mu (self w) = unlocked ->
    ((entries w !! key = None
      \/ exists item, entries w !! key = Some item /\ 0 < Expiration item < now) ->
     Replace key val d now w
     = Returns (Some (errDoNotExists key)) (logged [Acquire; Release] w))
    /\ (forall item, entries w !! key = Some item -> 0 <= Expiration item ->
          (0 < Expiration item < now <-> Expired now item = true))
    /\ (forall item,
          entries w !! key = Some item ->
          Expired now item = false ->
          kindOf (Object item) = None ->
          (exists w', Increment a key n now w = Returns (Some (errNotNumeric key)) w'
                      /\ entries w' = entries w)
          /\ (exists w', Decrement a key n now w = Returns (Some (errNotInteger key)) w'
                         /\ entries w' = entries w))
    /\ (forall (e : string) (w' : world),
          Add key val d now w = Returns (Some e) w'
          \/ Replace key val d now w = Returns (Some e) w'
          \/ Increment a key n now w = Returns (Some e) w'
          \/ Decrement a key n now w = Returns (Some e) w' ->
          heap w' = heap w /\ entries w' = entries w)
    /\ (exists e w', Replace key val d now w = Returns e w')
    /\ (exists e w', Increment a key n now w = Returns e w')
    /\ (exists e w', Decrement a key n now w = Returns e w').
Proof.
  intros a key val d n now w Hmu.
  split; [| split; [| split; [| split; [| split; [| split]]]]].
  - intros H. apply Replace_missing; [exact Hmu |]. apply found_false. exact H.
  - intros item _ Hnn. rewrite <- stale_true. rewrite (stale_nonneg now item Hnn).
    reflexivity.
  - intros item Hk He Hkind. split.
    + rewrite (Increment_not_numeric a key n now item w Hmu Hk He Hkind).
      eexists. split; reflexivity.
    + rewrite (Decrement_not_numeric a key n now item w Hmu Hk He Hkind).
      eexists. split; reflexivity.
  - intros e w' H.
    assert (Hh : heap w' = heap w /\ items (self w') = items (self w)).
    { destruct H as [H | [H | [H | H]]].
      - exact (harmless_Add key val d now w e w' H).
      - exact (harmless_Replace key val d now w e w' H).
      - exact (harmless_Increment a key n now w e w' H).
      - exact (harmless_Decrement a key n now w e w' H). }
    split; [apply Hh | apply entries_harmless; exact Hh].
  - apply Replace_total. exact Hmu.
  - apply Increment_total. exact Hmu.
  - apply Decrement_total. exact Hmu.
Qed.

Lemma failed_operations_change_nothing_witness :
  Replace "b" (VInt 2) 5 100 sample
  = Returns (Some (errDoNotExists "b")) (logged [Acquire; Release] sample).
Proof.
  apply (proj1 (failed_operations_change_nothing Arch64 "b" (VInt 2) 5 1 100 sample
                  eq_refl)).
  left. reflexivity.
Defined.

(** C7 (fails on the code).  [Replace] decides through [get], which
    tests [Expiration > 0]; its siblings decide through [Expired], which
    tests [Expiration != 0].  On an entry whose expiration is negative
    the entry is expired, [Get] does not find the key, and [Increment] and
    [Decrement] return their "not found" error; [Replace] does not fail:
    it returns the nil error and overwrites the entry, so the map is not
    as it was.  This is the defect of [get] that C4 meets in [Add]. *)
Theorem Replace_overwrites_a_key_that_Get_does_not_find :
  forall (a : GOARCH) (key : string) (val : value) (d n now : Z) (item : Item)
         (w : world),
    mu (self w) = unlocked ->
    entries w !! key = Some item ->
    Expiration item < 0 ->
    0 <= now ->
    Expired now item = true
    /\ Get key now w = Returns (VNil, false) (logged [RAcquire; RRelease] w)
    /\ Increment a key n now w = Returns (Some (errNotFound key)) (holding w)
    /\ Decrement a key n now w
       = Returns (Some (errNotFound key)) (logged [Acquire; Release] w)
    /\ (exists w',
          Replace key val d now w = Returns None w'
          /\ entries w' = <[key := mkItem val (expiration (self w) d now)]> (entries w)
          /\ (Object item <> val -> entries w' <> entries w))
    /\ ~ (exists e w', Replace key val d now w = Returns (Some e) w').
Proof.
  intros a key val d n now item w Hmu Hk Hneg Hnow.
  assert (He : Expired now item = true) by (apply Expired_true; lia).
  assert (Hans : answer now (entries w !! key) = (VNil, false)).
  { rewrite Hk. unfold answer. rewrite He. reflexivity. }
  assert (Hf : found now (entries w !! key) = true).
  { rewrite Hk. unfold found. destruct (stale now item) eqn:St; [| reflexivity].
    apply stale_true in St. lia. }
  destruct (Replace_replaces key val d now w Hmu Hf) as (w' & HR & He' & _).
  split; [exact He |].
  split; [rewrite Get_returns by (rewrite Hmu; reflexivity); rewrite Hans; reflexivity |].
  split; [apply Increment_missing; assumption |].
  split; [apply Decrement_missing; assumption |].
  split.
  - exists w'. split; [exact HR |]. split; [exact He' |].
    intros Hne Heq. rewrite He' in Heq.
    assert (Hl : (<[key := mkItem val (expiration (self w) d now)]> (entries w)) !! key
                 = Some item) by (rewrite Heq; exact Hk).
    rewrite lookup_insert_eq in Hl. injection Hl as Hl. apply Hne.
    rewrite <- Hl. reflexivity.
  - intros (e & w'' & H). rewrite HR in H. discriminate.
Qed.

Lemma Replace_overwrites_a_key_that_Get_does_not_find_witness :
  Expired 100 (mkItem (VInt 1) (-1)) = true
  /\ Get "k" 100 legacy = Returns (VNil, false) (logged [RAcquire; RRelease] legacy)
  /\ Increment Arch64 "k" 1 100 legacy
     = Returns (Some (errNotFound "k")) (holding legacy)
  /\ Decrement Arch64 "k" 1 100 legacy
     = Returns (Some (errNotFound "k")) (logged [Acquire; Release] legacy)
  /\ (exists w',
        Replace "k" (VInt 2) NoExpiration 100 legacy = Returns None w'
        /\ entries w'
           = <["k" := mkItem (VInt 2) (expiration (self legacy) NoExpiration 100)]>
               (entries legacy)
        /\ (Object (mkItem (VInt 1) (-1)) <> VInt 2 -> entries w' <> entries legacy))
  /\ ~ (exists e w',
          Replace "k" (VInt 2) NoExpiration 100 legacy = Returns (Some e) w').
Proof.
  apply (Replace_overwrites_a_key_that_Get_does_not_find Arch64 "k" (VInt 2)
           NoExpiration 1 100 (mkItem (VInt 1) (-1)) legacy);
    [reflexivity | reflexivity | | ]; cbn [Expiration]; lia.
Defined.

(** *** Keys that were never written *)

Lemma keeps_ret {A : Type} (key : string) (a : A) : keeps key (ret a).
Proof. intros w Hk Hwf. split; assumption. Qed.

Lemma keeps_bind {A B : Type} (key : string) (m : M A) (k : A -> M B) :
  keeps key m -> (forall a, keeps key (k a)) -> keeps key (bind m k).
Proof.
  intros Hm Hk w Hkey Hwf. unfold bind. specialize (Hm w Hkey Hwf).
  destruct (m w) as [a w' | w' | msg w' | msg w']; cbn [final] in *;
    try assumption.
  apply Hk; apply Hm.
Qed.

Lemma keeps_defer {A : Type} (key : string) (d : M unit) (body : M A) :
  keeps key d -> keeps key body -> keeps key (defer d body).
Proof.
  intros Hd Hb w Hkey Hwf. unfold defer. specialize (Hb w Hkey Hwf).
  destruct (body w) as [a w' | w' | msg w' | msg w']; cbn [final] in *;
    try assumption;
    destruct Hb as [Hb1 Hb2]; specialize (Hd w' Hb1 Hb2);
    destruct (d w') as [[] w'' | w'' | msg' w'' | msg' w''];
    cbn [final] in *; assumption.
Qed.

(** An operation that leaves the heap and [c.items] alone. *)
Lemma keeps_frame {A : Type} (key : string) (m : M A) :
  (forall w, heap (final (m w)) = heap w
             /\ items (self (final (m w))) = items (self w)) ->
  keeps key m.
Proof.
  intros H w Hkey Hwf. destruct (H w) as [Hh Hi].
  unfold entries, wellformed in *. rewrite Hh, Hi. split; assumption.
Qed.

Lemma keeps_Lock (key : string) : keeps key Lock.
Proof.
  apply keeps_frame. intros w. unfold Lock. destruct (_ || _); split; reflexivity.
Qed.

Lemma keeps_Unlock (key : string) : keeps key Unlock.
Proof.
  apply keeps_frame. intros w. unfold Unlock. destruct (writer _); split; reflexivity.
Qed.

Lemma keeps_RLock (key : string) : keeps key RLock.
Proof.
  apply keeps_frame. intros w. unfold RLock. destruct (writer _); split; reflexivity.
Qed.

Lemma keeps_RUnlock (key : string) : keeps key RUnlock.
Proof.
  apply keeps_frame. intros w. unfold RUnlock. destruct (readers _); split; reflexivity.
Qed.

Lemma keeps_getSelf (key : string) : keeps key getSelf.
Proof. apply keeps_frame. intros w. split; reflexivity. Qed.

Lemma keeps_mapLookup (key : string) (r : mapref) (k : string) :
  keeps key (mapLookup r k).
Proof. apply keeps_frame. intros w. split; reflexivity. Qed.

Lemma keeps_mapLen (key : string) (r : mapref) : keeps key (mapLen r).
Proof. apply keeps_frame. intros w. split; reflexivity. Qed.

Lemma keeps_mapRange (key : string) (r : mapref) : keeps key (mapRange r).
Proof. apply keeps_frame. intros w. split; reflexivity. Qed.

Lemma keeps_assignOnEvicted (key : string) (f : option callback) :
  keeps key (assignOnEvicted f).
Proof. apply keeps_frame. intros w. split; reflexivity. Qed.

Lemma keeps_callOnEvicted (key k : string) (v : value) : keeps key (callOnEvicted k v).
Proof.
  apply keeps_frame. intros w. unfold callOnEvicted.
  destruct (onEvicted _); split; reflexivity.
Qed.

Lemma keeps_make (key : string) : keeps key make.
Proof.
  intros w Hkey Hwf. unfold make, entries, wellformed in *.
  cbn [final set_heap heap self]. rewrite deref_app. split; [exact Hkey |].
  destruct (items (self w)); [| exact I]. rewrite length_app. cbn [length]. lia.
Qed.

(** A store to another key, in whatever map. *)
Lemma keeps_mapStore (key : string) (r : mapref) (k : string) (item : Item) :
  k <> key -> keeps key (mapStore r k item).
Proof.
  intros Hne w Hkey Hwf. unfold mapStore.
  destruct r as [l |]; [| split; assumption].
  destruct (heap w !! l) as [m |] eqn:E; [| split; assumption].
  unfold entries, wellformed in *. cbn [final set_heap heap self].
  destruct (items (self w)) as [l0 |]; [| split; assumption].
  rewrite length_insert. split; [| exact Hwf]. cbn [deref] in *.
  destruct (decide (l0 = l)) as [-> | Hl].
  - rewrite list_lookup_insert_eq by exact Hwf. cbn [from_option id].
    rewrite lookup_insert_ne by exact Hne. rewrite E in Hkey. exact Hkey.
  - rewrite list_lookup_insert_ne by congruence. exact Hkey.
Qed.

Lemma keeps_mapDelete (key : string) (r : mapref) (k : string) :
  keeps key (mapDelete r k).
Proof.
  intros w Hkey Hwf. unfold mapDelete.
  destruct r as [l |]; [| split; assumption].
  destruct (heap w !! l) as [m |] eqn:E; [| split; assumption].
  unfold entries, wellformed in *. cbn [final set_heap heap self].
  destruct (items (self w)) as [l0 |]; [| split; assumption].
  rewrite length_insert. split; [| exact Hwf]. cbn [deref] in *.
  destruct (decide (l0 = l)) as [-> | Hl].
  - rewrite list_lookup_insert_eq by exact Hwf. cbn [from_option id].
    rewrite E in Hkey. cbn [from_option id] in Hkey.
    apply lookup_delete_None. right. exact Hkey.
  - rewrite list_lookup_insert_ne by congruence. exact Hkey.
Qed.

Create HintDb keeps.
#[global] Hint Resolve keeps_ret keeps_Lock keeps_Unlock keeps_RLock keeps_RUnlock
  keeps_getSelf keeps_mapLookup keeps_mapLen keeps_mapRange keeps_assignOnEvicted
  keeps_callOnEvicted keeps_make keeps_mapStore keeps_mapDelete : keeps.

Ltac keeping :=
  repeat first
    [ progress auto with keeps
    | apply keeps_bind; [| intros ?]
    | apply keeps_defer
    | match goal with
      | |- keeps _ (match ?x with _ => _ end) => destruct x
      | |- keeps _ (if ?x then _ else _) => destruct x
      end ].

Lemma keeps_set (key k : string) (val : value) (d now : Z) :
  k <> key -> keeps key (set k val d now).
Proof. intros Hne. unfold set. keeping. Qed.

Lemma keeps_get (key k : string) (now : Z) : keeps key (get k now).
Proof. unfold get. keeping. Qed.

Lemma keeps_Set (key k : string) (val : value) (d now : Z) :
  k <> key -> keeps key (Set_ k val d now).
Proof. intros Hne. unfold Set_. keeping. Qed.

Lemma keeps_Add (key k : string) (val : value) (d now : Z) :
  k <> key -> keeps key (Add k val d now).
Proof.
  intros Hne. unfold Add. pose proof (keeps_get key k now).
  pose proof (keeps_set key k val d now Hne). keeping.
Qed.

Lemma keeps_Replace (key k : string) (val : value) (d now : Z) :
  k <> key -> keeps key (Replace k val d now).
Proof.
  intros Hne. unfold Replace. pose proof (keeps_get key k now).
  pose proof (keeps_set key k val d now Hne). keeping.
Qed.

Lemma keeps_Get (key k : string) (now : Z) : keeps key (Get k now).
Proof. unfold Get. keeping. Qed.

Lemma keeps_ItemCount (key : string) : keeps key ItemCount.
Proof. unfold ItemCount. keeping. Qed.

Lemma keeps_OnEvicted (key : string) (f : option callback) : keeps key (OnEvicted f).
Proof. unfold OnEvicted. keeping. Qed.

Lemma keeps_delete (key k : string) : keeps key (delete k).
Proof. unfold delete. keeping. Qed.

Lemma keeps_Delete (key k : string) : keeps key (Delete k).
Proof. unfold Delete. pose proof (keeps_delete key k). keeping. Qed.

Lemma keeps_sweep (key : string) (now : Z) (es : list (string * Item)) :
  forall ev, keeps key (sweep now es ev).
Proof.
  induction es as [| [k item] rest IH]; intros ev; cbn [sweep].
  - apply keeps_ret.
  - pose proof (keeps_delete key k). keeping.
Qed.

Lemma keeps_callAll (key : string) (ev : list (string * value)) :
  keeps key (callAll ev).
Proof.
  induction ev as [| [k v] rest IH]; cbn [callAll]; keeping.
Qed.

Lemma keeps_DeleteExpired (key : string) (now : Z) : keeps key (DeleteExpired now).
Proof.
  unfold DeleteExpired. pose proof (keeps_sweep key now).
  pose proof (keeps_callAll key). keeping.
Qed.

Lemma Lock_busy (w : world) : mu (self w) <> unlocked -> Lock w = Blocks w.
Proof.
  intros H. unfold Lock. destruct (mu (self w)) as [[|] [| n]]; try reflexivity.
  exfalso. apply H. reflexivity.
Qed.

Lemma mu_free_dec (w : world) : {mu (self w) = unlocked} + {mu (self w) <> unlocked}.
Proof.
  destruct (mu (self w)) as [[|] [| n]];
    [right | right | left | right]; (reflexivity || discriminate).
Qed.

(** [Increment] and [Decrement] store where an entry is: the key they
    write has one. *)
Lemma keeps_Increment (a : GOARCH) (key k : string) (n now : Z) :
  keeps key (Increment a k n now).
Proof.
  destruct (decide (k = key)) as [-> | Hne].
  - intros w Hkey Hwf. destruct (mu_free_dec w) as [Hmu | Hmu].
    + rewrite Increment_missing; [| exact Hmu | rewrite Hkey; reflexivity].
      split; assumption.
    + unfold Increment, bind. rewrite (Lock_busy w Hmu). split; assumption.
  - unfold Increment. keeping.
Qed.

Lemma keeps_Decrement (a : GOARCH) (key k : string) (n now : Z) :
  keeps key (Decrement a k n now).
Proof.
  destruct (decide (k = key)) as [-> | Hne].
  - intros w Hkey Hwf. destruct (mu_free_dec w) as [Hmu | Hmu].
    + rewrite Decrement_missing; [| exact Hmu | rewrite Hkey; reflexivity].
      split; assumption.
    + unfold Decrement, bind. rewrite (Lock_busy w Hmu). split; assumption.
  - unfold Decrement. keeping.
Qed.

Lemma keeps_Items (key : string) (now : Z) : keeps key (Items now).
Proof.
  intros w Hkey Hwf. destruct (writer (mu (self w))) eqn:Hw.
  - unfold Items, bind, RLock. rewrite Hw. split; assumption.
  - rewrite Items_returns by exact Hw. cbn [final].
    unfold entries, wellformed in *. cbn [logged set_heap heap self].
    destruct (items (self w)) as [l |]; [| split; assumption].
    cbn [deref] in *. rewrite lookup_app_l by exact Hwf.
    split; [exact Hkey |]. rewrite length_app. lia.
Qed.

Lemma keeps_Flush (key : string) : keeps key Flush.
Proof.
  intros w Hkey Hwf. destruct (mu_free_dec w) as [Hmu | Hmu].
  - unfold Flush. go. rewrite Hmu. go. unfold wellformed.
    cbn [self items heap deref].
    rewrite lookup_app_r by reflexivity. rewrite Nat.sub_diag.
    split; [reflexivity |].
    cbn [logged set_mu set_items set_heap self items heap].
    rewrite length_app. cbn [length]. lia.
  - unfold Flush, bind. rewrite (Lock_busy w Hmu). split; assumption.
Qed.

(** A call that does not write [key] gives it no entry. *)
Lemma perform_keeps (a : GOARCH) (key : string) (o : op) (now : Z) (w : world) :
  written o <> Some key ->
  entries w !! key = None -> wellformed w ->
  entries (perform a o now w) !! key = None /\ wellformed (perform a o now w).
Proof.
  intros Hw Hkey Hwf.
  destruct o as [k v d | k v | k v d | k v d | k | k n | k n | k | | f | | |];
    cbn [written perform] in *.
  - apply keeps_Set; [congruence | exact Hkey | exact Hwf].
  - apply keeps_Set; [congruence | exact Hkey | exact Hwf].
  - apply keeps_Add; [congruence | exact Hkey | exact Hwf].
  - apply keeps_Replace; [congruence | exact Hkey | exact Hwf].
  - apply keeps_Get; assumption.
  - apply keeps_Increment; assumption.
  - apply keeps_Decrement; assumption.
  - apply keeps_Delete; assumption.
  - apply keeps_DeleteExpired; assumption.
  - apply keeps_OnEvicted; assumption.
  - apply keeps_Items; assumption.
  - apply keeps_ItemCount; assumption.
  - apply keeps_Flush; assumption.
Qed.

Lemma history_keeps (a : GOARCH) (key : string) (ops : list (op * Z)) :
  forall w : world,
    Forall (fun c => written c.1 <> Some key) ops ->
    entries w !! key = None -> wellformed w ->
    entries (history a ops w) !! key = None.
Proof.
  induction ops as [| [o now] rest IH]; intros w Hops Hkey Hwf.
  - exact Hkey.
  - cbn [history]. apply Forall_cons in Hops as [Ho Hrest].
    destruct (perform_keeps a key o now w Ho Hkey Hwf) as [Hk' Hwf'].
    apply IH; assumption.
Qed.


(** C6.  On a store whose lock is free and whose map exists, at a clock
    reading [now] after the epoch: [Set] with a positive [ttl] returns, and
    from then on [Get] at any time up to the computed expiry instant
    [UnixNanoAfter now ttl] (the sum [now + ttl] where that fits [int64])
    returns the value with [true], and at any later time returns nil with
    [false]; [Set] with [NoExpiration] returns, and [Get] returns the
    value with [true] at every time; [Get] of a key with no entry returns
    nil with [false].  A new store has no entry, and after any history of
    calls on a new store none of which is a [Set], [SetDefault], [Add] or
    [Replace] of the key, the key has no entry: [Get] returns nil with
    [false] (or, where an earlier call has left the write lock held, does
    not return). *)
Theorem Set_then_Get :
  forall (key : string) (val : value) (now : Z) (w : world),
    mu (self w) = unlocked ->
    allocated w ->
    0 <= now < 2 ^ 63 ->
    (forall ttl : Z,
       0 < ttl < 2 ^ 63 ->
       (now + ttl < 2 ^ 63 -> UnixNanoAfter now ttl = now + ttl)
       /\ exists w',
            Set_ key val ttl now w = Returns tt w'
            /\ (forall t : Z, t <= UnixNanoAfter now ttl ->
                  Get key t w' = Returns (val, true) (logged [RAcquire; RRelease] w'))
            /\ (forall t : Z, UnixNanoAfter now ttl < t ->
                  Get key t w' = Returns (VNil, false) (logged [RAcquire; RRelease] w')))
    /\ (exists w',
          Set_ key val NoExpiration now w = Returns tt w'
          /\ forall t : Z,
               Get key t w' = Returns (val, true) (logged [RAcquire; RRelease] w'))
    /\ (entries w !! key = None ->
        forall t : Z,
          Get key t w = Returns (VNil, false) (logged [RAcquire; RRelease] w))
    /\ (forall (d interval t : Z),
          Get key t (NewCache d interval)
          = Returns (VNil, false) (logged [RAcquire; RRelease] (NewCache d interval)))
    /\ (forall (a : GOARCH) (ops : list (op * Z)) (d interval t : Z),
          Forall (fun c => written c.1 <> Some key) ops ->
          entries (history a ops (NewCache d interval)) !! key = None
          /\ (Get key t (history a ops (NewCache d interval))
              = Returns (VNil, false)
                  (logged [RAcquire; RRelease] (history a ops (NewCache d interval)))
              \/ Get key t (history a ops (NewCache d interval))
                 = Blocks (history a ops (NewCache d interval)))).
Proof.
  intros key val now w Hmu Hal Hnow.
  assert (Hget : forall w' item,
             self w' = self w ->
             entries w' = <[key := item]> (entries w) ->
             forall t, Get key t w'
                       = Returns (answer t (Some item)) (logged [RAcquire; RRelease] w')).
  { intros w' item Hs He t. rewrite Get_returns.
    - rewrite He, lookup_insert_eq. reflexivity.
    - rewrite Hs, Hmu. reflexivity. }
  split; [| split; [| split; [| split]]].
  - intros ttl Httl. split; [intros Hfit; apply UnixNanoAfter_sum; lia |].
    destruct (Set_returns key val ttl now w Hmu Hal) as (w' & HS & He & Hs & _).
    assert (Hexp : expiration (self w) ttl now = UnixNanoAfter now ttl).
    { unfold expiration, DefaultExpiration.
      destruct (Z.eqb_spec ttl 0) as [E | _]; [lia |].
      destruct (ttl >? 0) eqn:G; [reflexivity |]. apply gtb_false in G. lia. }
    rewrite Hexp in He. pose proof (UnixNanoAfter_nonzero now ttl Hnow Httl) as Hne.
    exists w'. split; [exact HS |]. split; intros t Ht;
      rewrite (Hget w' _ Hs He t); unfold answer; cbn [Object].
    + replace (Expired t _) with false; [reflexivity |].
      symmetry. apply Expired_false. cbn [Expiration]. lia.
    + replace (Expired t _) with true; [reflexivity |].
      symmetry. apply Expired_true. cbn [Expiration]. lia.
  - destruct (Set_returns key val NoExpiration now w Hmu Hal) as (w' & HS & He & Hs & _).
    exists w'. split; [exact HS |]. intros t. rewrite (Hget w' _ Hs He t).
    reflexivity.
  - intros Hk t. rewrite Get_returns by (rewrite Hmu; reflexivity).
    rewrite Hk. reflexivity.
  - intros d interval t. reflexivity.
  - intros a ops d interval t Hops.
    assert (Hk : entries (history a ops (NewCache d interval)) !! key = None).
    { apply history_keeps; [exact Hops | reflexivity |].
      unfold wellformed. cbn. lia. }
    split; [exact Hk |].
    destruct (writer (mu (self (history a ops (NewCache d interval))))) eqn:Hw.
    + right. unfold Get, bind, RLock. rewrite Hw. reflexivity.
    + left. rewrite Get_returns by exact Hw. rewrite Hk. reflexivity.
Qed.

Lemma Set_then_Get_witness :
  (100 + 5 < 2 ^ 63 -> UnixNanoAfter 100 5 = 100 + 5)
  /\ exists w',
       Set_ "k" (VString "v") 5 100 (NewCache 0 0) = Returns tt w'
       /\ (forall t : Z, t <= UnixNanoAfter 100 5 ->
             Get "k" t w' = Returns (VString "v", true) (logged [RAcquire; RRelease] w'))
       /\ (forall t : Z, UnixNanoAfter 100 5 < t ->
             Get "k" t w' = Returns (VNil, false) (logged [RAcquire; RRelease] w')).
Proof.
  assert (Hal : allocated (NewCache 0 0)).
  { exists 0%nat, ∅. split; reflexivity. }
  assert (Hnow : 0 <= 100 < 2 ^ 63) by (split; [lia | reflexivity]).
  assert (Httl : 0 < 5 < 2 ^ 63) by (split; reflexivity).
  exact (proj1 (Set_then_Get "k" (VString "v") 100 (NewCache 0 0) eq_refl Hal Hnow)
           5 Httl).
Defined.


(** * Further properties of the store *)

(** ** [GetWithExpiration] *)

(** The expiry time [GetWithExpiration] reports for an entry it finds. *)
Lemma GetWithExpiration_returns (key : string) (now : Z) (w : world) :
  writer (mu (self w)) = false ->
  GetWithExpiration key now w
  = Returns (match entries w !! key with
             | Some item =>
                 if stale now item then (VNil, ZeroTime, false)
                 else (Object item,
                       if Expiration item >? 0 then Unix (Expiration item) else ZeroTime,
                       true)
             | None => (VNil, ZeroTime, false)
             end) (logged [RAcquire; RRelease] w).
Proof.
  destruct w as [h [d i [wr n] o] cs]. cbn [self mu writer]. intros ->.
  unfold GetWithExpiration, stale. go.
  destruct (deref h i !! key) as [item |]; go; [| f_equal; same_world].
  destruct (Expiration item >? 0); [destruct (now >? Expiration item) |];
    go; f_equal; same_world.
Qed.

Lemma expiration_positive (c : cache) (ttl now : Z) :
  0 < ttl -> - 2 ^ 63 <= now + ttl < 2 ^ 63 -> expiration c ttl now = now + ttl.
Proof.
  intros Hp Hfit. unfold expiration, DefaultExpiration.
  destruct (Z.eqb_spec ttl 0) as [E | _]; [lia |].
  destruct (ttl >? 0) eqn:G; [apply UnixNanoAfter_sum; exact Hfit |].
  apply gtb_false in G. lia.
Qed.

Lemma expiration_negative (c : cache) (ttl now : Z) :
  ttl < 0 -> expiration c ttl now = 0.
Proof.
  intros Hn. unfold expiration, DefaultExpiration.
  destruct (Z.eqb_spec ttl 0) as [E | _]; [lia |].
  destruct (ttl >? 0) eqn:G; [apply gtb_true in G; lia | reflexivity].
Qed.

(** [Set] with a positive [ttl] that does not overflow, then
    [GetWithExpiration]: up to the instant [now + ttl] it returns the
    value, that instant and [true]; later it returns nil, the zero time
    and [false].  After [Set] with any negative [ttl] it returns the value,
    the zero time and [true] at every time. *)
Theorem Set_then_GetWithExpiration :
  forall (key : string) (val : value) (now : Z) (w : world),
    mu (self w) = unlocked ->
    allocated w ->
    0 <= now ->
    (forall ttl : Z,
       0 < ttl -> now + ttl < 2 ^ 63 ->
       exists w',
         Set_ key val ttl now w = Returns tt w'
         /\ (forall t : Z, t <= now + ttl ->
               GetWithExpiration key t w'
               = Returns (val, Unix (now + ttl), true) (logged [RAcquire; RRelease] w'))
         /\ (forall t : Z, now + ttl < t ->
               GetWithExpiration key t w'
               = Returns (VNil, ZeroTime, false) (logged [RAcquire; RRelease] w')))
    /\ (forall ttl : Z,
          ttl < 0 ->
          exists w',
            Set_ key val ttl now w = Returns tt w'
            /\ forall t : Z,
                 GetWithExpiration key t w'
                 = Returns (val, ZeroTime, true) (logged [RAcquire; RRelease] w')).
Proof.
  intros key val now w Hmu Hal Hnow. split.
  - intros ttl Hp Hfit.
    destruct (Set_returns key val ttl now w Hmu Hal) as (w' & HS & He & Hs & _).
    assert (H63 : 0 < 2 ^ 63) by reflexivity.
    rewrite expiration_positive in He by lia.
    assert (Hw : writer (mu (self w')) = false) by (rewrite Hs, Hmu; reflexivity).
    exists w'. split; [exact HS |]. split; intros t Ht;
      rewrite (GetWithExpiration_returns key t w' Hw), He, lookup_insert_eq;
      unfold stale; cbn [Expiration Object].
    + replace (now + ttl >? 0) with true by (symmetry; apply gtb_true; lia).
      replace (t >? now + ttl) with false by (symmetry; apply gtb_false; lia).
      reflexivity.
    + replace (now + ttl >? 0) with true by (symmetry; apply gtb_true; lia).
      replace (t >? now + ttl) with true by (symmetry; apply gtb_true; lia).
      reflexivity.
  - intros ttl Hn.
    destruct (Set_returns key val ttl now w Hmu Hal) as (w' & HS & He & Hs & _).
    rewrite expiration_negative in He by exact Hn.
    assert (Hw : writer (mu (self w')) = false) by (rewrite Hs, Hmu; reflexivity).
    exists w'. split; [exact HS |]. intros t.
    rewrite (GetWithExpiration_returns key t w' Hw), He, lookup_insert_eq.
    reflexivity.
Qed.

Lemma Set_then_GetWithExpiration_witness :
  exists w',
    Set_ "k" (VString "v") 5 100 (NewCache 0 0) = Returns tt w'
    /\ (forall t : Z, t <= 100 + 5 ->
          GetWithExpiration "k" t w'
          = Returns (VString "v", Unix (100 + 5), true) (logged [RAcquire; RRelease] w'))
    /\ (forall t : Z, 100 + 5 < t ->
          GetWithExpiration "k" t w'
          = Returns (VNil, ZeroTime, false) (logged [RAcquire; RRelease] w')).
Proof.
  assert (Hal : allocated (NewCache 0 0)).
  { exists 0%nat, ∅. split; reflexivity. }
  assert (Hnow : 0 <= 100) by lia.
  assert (Hp : 0 < 5) by lia.
  assert (Hfit : 100 + 5 < 2 ^ 63) by reflexivity.
  exact (proj1 (Set_then_GetWithExpiration "k" (VString "v") 100 (NewCache 0 0)
                  eq_refl Hal Hnow) 5 Hp Hfit).
Defined.

(** For a key whose entry, if any, has no negative expiration,
    [GetWithExpiration] returns the value and the flag that [Get] returns,
    and the zero time whenever the flag is [false]; neither changes heap
    or store.  On the entry of [legacy], whose expiration is [-1], they
    differ: [Get] does not find it, [GetWithExpiration] returns it with
    the zero time. *)
Theorem GetWithExpiration_agrees_with_Get :
  (forall (key : string) (now : Z) (w : world),
     writer (mu (self w)) = false ->
     (forall item, entries w !! key = Some item -> 0 <= Expiration item) ->
     exists (v : value) (t : Time) (ok : bool),
       GetWithExpiration key now w
       = Returns (v, t, ok) (logged [RAcquire; RRelease] w)
       /\ Get key now w = Returns (v, ok) (logged [RAcquire; RRelease] w)
       /\ (ok = false -> v = VNil /\ t = ZeroTime))
  /\ Get "k" 100 legacy = Returns (VNil, false) (logged [RAcquire; RRelease] legacy)
  /\ GetWithExpiration "k" 100 legacy
     = Returns (VInt 1, ZeroTime, true) (logged [RAcquire; RRelease] legacy).
Proof.
  split; [| split; [apply Get_returns | apply GetWithExpiration_returns]; reflexivity].
  intros key now w Hw Hnn.
  rewrite (GetWithExpiration_returns key now w Hw), (Get_returns key now w Hw).
  unfold answer. destruct (entries w !! key) as [item |] eqn:Hk.
  - rewrite <- (stale_nonneg now item (Hnn item eq_refl)).
    destruct (stale now item); eexists _, _, _;
      (split; [reflexivity |]); (split; [reflexivity |]);
      intros; (discriminate || (split; reflexivity)).
  - eexists _, _, _. split; [reflexivity |]. split; [reflexivity |].
    intros _. split; reflexivity.
Qed.

Lemma GetWithExpiration_agrees_with_Get_witness :
  exists (v : value) (t : Time) (ok : bool),
    GetWithExpiration "a" 3 sample
    = Returns (v, t, ok) (logged [RAcquire; RRelease] sample)
    /\ Get "a" 3 sample = Returns (v, ok) (logged [RAcquire; RRelease] sample)
    /\ (ok = false -> v = VNil /\ t = ZeroTime).
Proof.
  apply (proj1 GetWithExpiration_agrees_with_Get "a" 3 sample eq_refl).
  intros item H. vm_compute in H. injection H as <-. cbn. lia.
Defined.

(** ** [OnEvicted] and [Delete] *)







(** ** [Set] and [Replace] *)

(** [Set] changes what [Get] answers for its own key only, and a second
    [Set] of the key overwrites the first entirely: the entries are those
    the second [Set] alone would have left, value and expiration. *)
Theorem Set_changes_one_key :
  forall (k : string) (v : value) (d now : Z) (w : world),
    mu (self w) = unlocked ->
    allocated w ->
    exists w',
      Set_ k v d now w = Returns tt w'
      /\ (forall (k' : string) (t : Z),
            k' <> k ->
            exists r,
              Get k' t w = Returns r (logged [RAcquire; RRelease] w)
              /\ Get k' t w' = Returns r (logged [RAcquire; RRelease] w'))
      /\ (forall (v2 : value) (d2 now2 : Z),
            exists w'',
              Set_ k v2 d2 now2 w' = Returns tt w''
              /\ entries w''
                 = <[k := mkItem v2 (expiration (self w) d2 now2)]> (entries w)).
Proof.
  intros k v d now w Hmu Hal.
  destruct (Set_returns k v d now w Hmu Hal) as (w' & HS & He & Hs & _ & Hal').
  assert (Hmu' : mu (self w') = unlocked) by (rewrite Hs; exact Hmu).
  exists w'. split; [exact HS |]. split.
  - intros k' t Hne. exists (answer t (entries w !! k')). split.
    + apply Get_returns. rewrite Hmu. reflexivity.
    + rewrite Get_returns by (rewrite Hmu'; reflexivity).
      rewrite He, lookup_insert_ne by congruence. reflexivity.
  - intros v2 d2 now2.
    destruct (Set_returns k v2 d2 now2 w' Hmu' Hal') as (w'' & HS2 & He2 & _).
    exists w''. split; [exact HS2 |]. rewrite He2, He, Hs.
    apply insert_insert_eq.
Qed.

Lemma Set_changes_one_key_witness :
  exists w',
    Set_ "b" (VInt 2) 5 100 sample = Returns tt w'
    /\ (forall (k' : string) (t : Z),
          k' <> "b" ->
          exists r,
            Get k' t sample = Returns r (logged [RAcquire; RRelease] sample)
            /\ Get k' t w' = Returns r (logged [RAcquire; RRelease] w'))
    /\ (forall (v2 : value) (d2 now2 : Z),
          exists w'',
            Set_ "b" v2 d2 now2 w' = Returns tt w''
            /\ entries w''
               = <["b" := mkItem v2 (expiration (self sample) d2 now2)]>
                   (entries sample)).
Proof.
  assert (Hal : allocated sample).
  { exists 0%nat, {["a" := mkItem (VInt 1) 5]}. split; reflexivity. }
  exact (Set_changes_one_key "b" (VInt 2) 5 100 sample eq_refl Hal).
Defined.

(** After [Set], [ItemCount] is one more than before when the key had no
    entry, and the same as before when it had one, expired or not. *)
Theorem Set_then_ItemCount :
  forall (k : string) (v : value) (d now : Z) (w : world),
    mu (self w) = unlocked ->
    allocated w ->
    exists w',
      Set_ k v d now w = Returns tt w'
      /\ ItemCount w'
         = Returns (match entries w !! k with
                    | Some _ => size (entries w)
                    | None => S (size (entries w))
                    end) (logged [RAcquire; RRelease] w').
Proof.
  intros k v d now w Hmu Hal.
  destruct (Set_returns k v d now w Hmu Hal) as (w' & HS & He & Hs & _).
  exists w'. split; [exact HS |].
  rewrite ItemCount_returns by (rewrite Hs, Hmu; reflexivity).
  rewrite He. f_equal.
  destruct (entries w !! k) as [item |] eqn:Hk.
  - apply map_size_insert_Some. rewrite Hk. eexists. reflexivity.
  - apply map_size_insert_None. exact Hk.
Qed.

Lemma Set_then_ItemCount_witness :
  exists w',
    Set_ "b" (VInt 2) 5 100 sample = Returns tt w'
    /\ ItemCount w'
       = Returns (match entries sample !! "b" with
                  | Some _ => size (entries sample)
                  | None => S (size (entries sample))
                  end) (logged [RAcquire; RRelease] w').
Proof.
  assert (Hal : allocated sample).
  { exists 0%nat, {["a" := mkItem (VInt 1) 5]}. split; reflexivity. }
  exact (Set_then_ItemCount "b" (VInt 2) 5 100 sample eq_refl Hal).
Defined.

(** [Replace] of a key that [get] finds returns the nil error and gives
    the key the new value and the expiration of the new duration; the keys
    of the store and [ItemCount] stay the same, and no callback is
    called. *)
Theorem Replace_keeps_the_keys :
  forall (key : string) (val : value) (d now : Z) (item : Item) (w : world),
    mu (self w) = unlocked ->
    entries w !! key = Some item ->
    stale now item = false ->
    exists w',
      Replace key val d now w = Returns None w'
      /\ entries w' !! key = Some (mkItem val (expiration (self w) d now))
      /\ (forall k, k <> key -> entries w' !! k = entries w !! k)
      /\ dom (entries w') = dom (entries w)
      /\ ItemCount w' = Returns (size (entries w)) (logged [RAcquire; RRelease] w')
      /\ calls (trace w') = calls (trace w)
      /\ mu (self w') = unlocked.
Proof.
  intros key val d now item w Hmu Hk Hst.
  assert (Hf : found now (entries w !! key) = true).
  { rewrite Hk. unfold found. rewrite Hst. reflexivity. }
  destruct (Replace_replaces key val d now w Hmu Hf) as (w' & HR & He & Hs & Ht).
  exists w'. split; [exact HR |].
  split; [rewrite He; apply lookup_insert_eq |].
  split; [intros k Hne; rewrite He; apply lookup_insert_ne; congruence |].
  split.
  { rewrite He, dom_insert_L. apply (elem_of_dom_2 (D := gset string)) in Hk.
    apply subseteq_union_1_L, singleton_subseteq_l. exact Hk. }
  split.
  { rewrite ItemCount_returns by (rewrite Hs, Hmu; reflexivity).
    rewrite He. f_equal. apply map_size_insert_Some. rewrite Hk.
    eexists. reflexivity. }
  split; [| rewrite Hs; exact Hmu].
  rewrite Ht, calls_app. apply app_nil_r.
Qed.

Lemma Replace_keeps_the_keys_witness :
  exists w',
    Replace "a" (VInt 2) 5 3 sample = Returns None w'
    /\ entries w' !! "a" = Some (mkItem (VInt 2) (expiration (self sample) 5 3))
    /\ (forall k, k <> "a" -> entries w' !! k = entries sample !! k)
    /\ dom (entries w') = dom (entries sample)
    /\ ItemCount w' = Returns (size (entries sample)) (logged [RAcquire; RRelease] w')
    /\ calls (trace w') = calls (trace sample)
    /\ mu (self w') = unlocked.
Proof.
  exact (Replace_keeps_the_keys "a" (VInt 2) 5 3 (mkItem (VInt 1) 5) sample
           eq_refl eq_refl eq_refl).
Defined.

(** ** [NewFrom]: the caller's map *)

(** A store made by [NewFrom] from the map at [l] works on that very map:
    an entry [Set] stores is in the map the caller holds, and an entry the
    caller stores is what [Get] answers from.  [Flush] ends the sharing:
    it gives the store a new map and leaves the caller's as it was, and no
    later [Set] reaches the caller's map. *)
Theorem NewFrom_shares_the_map :
  forall (d interval : Z) (h : list (gmap string Item)) (l : nat)
         (m : gmap string Item),
    h !! l = Some m ->
    let w := NewFrom d interval h (Some l) in
    (forall (k : string) (v : value) (ttl now : Z),
        exists w',
          Set_ k v ttl now w = Returns tt w'
          /\ heap w' !! l = Some (<[k := mkItem v (expiration (self w) ttl now)]> m))
    /\ (forall (k : string) (item : Item) (t : Z),
          exists w',
            mapStore (Some l) k item w = Returns tt w'
            /\ Get k t w'
               = Returns (answer t (Some item)) (logged [RAcquire; RRelease] w'))
    /\ (exists w1,
          Flush w = Returns tt w1
          /\ heap w1 !! l = Some m
          /\ items (self w1) <> Some l
          /\ forall (k : string) (v : value) (ttl now : Z),
               exists w2,
                 Set_ k v ttl now w1 = Returns tt w2 /\ heap w2 !! l = Some m).
Proof.
  intros d interval h l m Hl w.
  assert (Hlt : (l < length h)%nat) by (apply lookup_lt_is_Some; eauto).
  split; [| split].
  - intros k v ttl now.
    assert (Hal : allocated w) by (exists l, m; split; [reflexivity | exact Hl]).
    destruct (Set_returns k v ttl now w eq_refl Hal)
      as (w' & HS & He & Hs & _ & (l' & m' & Hi' & Hl')).
    rewrite Hs in Hi'. injection Hi' as <-.
    exists w'. split; [exact HS |]. rewrite Hl'. f_equal.
    rewrite <- (entries_allocated w' l m') by (rewrite ?Hs; trivial).
    rewrite He. f_equal. apply (entries_allocated w l m); [reflexivity | exact Hl].
  - intros k item t. subst w. unfold NewFrom, newCache. go. rewrite Hl.
    eexists. split; [reflexivity |].
    rewrite Get_returns by reflexivity. f_equal. f_equal.
    unfold entries, set_heap. cbn [heap self items deref].
    rewrite list_lookup_insert_eq by exact Hlt. cbn [from_option id].
    apply lookup_insert_eq.
  - subst w. unfold Flush, NewFrom, newCache. go. eexists. split; [reflexivity |].
    unfold logged, set_mu, set_heap, set_items. cbn [heap self items mu trace].
    split; [rewrite lookup_app_l by exact Hlt; exact Hl |].
    split; [intros [= E]; lia |].
    intros k v ttl now. unfold Set_. go.
    rewrite lookup_app_r by reflexivity. rewrite Nat.sub_diag.
    cbn [lookup list_lookup]. go.
    eexists. split; [reflexivity |].
    unfold logged, set_mu, set_heap. cbn [heap].
    rewrite list_lookup_insert_ne by lia.
    rewrite lookup_app_l by exact Hlt. exact Hl.
Qed.

Lemma NewFrom_shares_the_map_witness :
  let w := NewFrom 0 0 [{["k" := mkItem (VInt 1) (-1)]}] (Some 0%nat) in
  (forall (k : string) (v : value) (ttl now : Z),
      exists w',
        Set_ k v ttl now w = Returns tt w'
        /\ heap w' !! 0%nat
           = Some (<[k := mkItem v (expiration (self w) ttl now)]>
                     {["k" := mkItem (VInt 1) (-1)]}))
  /\ (forall (k : string) (item : Item) (t : Z),
        exists w',
          mapStore (Some 0%nat) k item w = Returns tt w'
          /\ Get k t w'
             = Returns (answer t (Some item)) (logged [RAcquire; RRelease] w'))
  /\ (exists w1,
        Flush w = Returns tt w1
        /\ heap w1 !! 0%nat = Some {["k" := mkItem (VInt 1) (-1)]}
        /\ items (self w1) <> Some 0%nat
        /\ forall (k : string) (v : value) (ttl now : Z),
             exists w2,
               Set_ k v ttl now w1 = Returns tt w2
               /\ heap w2 !! 0%nat = Some {["k" := mkItem (VInt 1) (-1)]}).
Proof.
  exact (NewFrom_shares_the_map 0 0 [{["k" := mkItem (VInt 1) (-1)]}] 0%nat
           {["k" := mkItem (VInt 1) (-1)]} eq_refl).
Defined.

(** A store whose map is nil (as [NewFrom] makes from a nil map) answers
    every read as an empty store does, and [Replace] returns its error;
    [Set] and [Add] panic on the assignment, after the lock was taken and
    before it is released, so the lock stays held.  [Flush] gives the store
    a map, after which [Set] returns. *)
Theorem nil_map_reads_but_panics_on_writes :
  forall (w : world),
    items (self w) = None ->
    mu (self w) = unlocked ->
    (forall (k : string) (t : Z),
        Get k t w = Returns (VNil, false) (logged [RAcquire; RRelease] w))
    /\ ItemCount w = Returns 0%nat (logged [RAcquire; RRelease] w)
    /\ (forall (k : string) (v : value) (d now : Z),
          Set_ k v d now w = Panics "assignment to entry in nil map" (holding w))
    /\ (forall (k : string) (v : value) (d now : Z),
          Add k v d now w = Panics "assignment to entry in nil map" (holding w))
    /\ (forall (k : string) (v : value) (d now : Z),
          exists w',
            Replace k v d now w = Returns (Some (errDoNotExists k)) w'
            /\ heap w' = heap w /\ self w' = self w)
    /\ (exists w',
          Flush w = Returns tt w'
          /\ forall (k : string) (v : value) (d now : Z),
               exists w'', Set_ k v d now w' = Returns tt w'').
Proof.
  intros w Hi Hmu.
  assert (He : entries w = ∅) by (unfold entries; rewrite Hi; reflexivity).
  split; [| split; [| split; [| split; [| split]]]].
  - intros k t. rewrite Get_returns by (rewrite Hmu; reflexivity).
    rewrite He. reflexivity.
  - rewrite ItemCount_returns by (rewrite Hmu; reflexivity).
    rewrite He. reflexivity.
  - intros k v d now. destruct w as [h [dE i mu0 o] cs].
    cbn [self mu items] in *. subst. unfold Set_, holding. go. reflexivity.
  - intros k v d now. destruct w as [h [dE i mu0 o] cs].
    cbn [self mu items] in *. subst. unfold Add, get, set, holding. go.
    reflexivity.
  - intros k v d now.
    exists (logged [Acquire; Release] w).
    split; [| split; reflexivity].
    apply Replace_missing; [exact Hmu | rewrite He; reflexivity].
  - destruct (Flush_returns w Hmu) as (w' & HF & _ & _ & Hmu').
    exists w'. split; [exact HF |]. intros k v d now.
    assert (Hal : allocated w').
    { revert HF. unfold Flush. go. rewrite Hmu. go. intros [= <-].
      exists (length (heap w)), ∅. split; [reflexivity |].
      unfold logged, set_mu, set_heap, set_items. cbn [heap].
      rewrite lookup_app_r by reflexivity. rewrite Nat.sub_diag. reflexivity. }
    destruct (Set_returns k v d now w' Hmu' Hal) as (w'' & HS & _).
    eauto.
Qed.

Lemma nil_map_reads_but_panics_on_writes_witness :
  let w := NewFrom 0 0 [] None in
  (forall (k : string) (t : Z),
      Get k t w = Returns (VNil, false) (logged [RAcquire; RRelease] w))
  /\ ItemCount w = Returns 0%nat (logged [RAcquire; RRelease] w)
  /\ (forall (k : string) (v : value) (d now : Z),
        Set_ k v d now w = Panics "assignment to entry in nil map" (holding w))
  /\ (forall (k : string) (v : value) (d now : Z),
        Add k v d now w = Panics "assignment to entry in nil map" (holding w))
  /\ (forall (k : string) (v : value) (d now : Z),
        exists w',
          Replace k v d now w = Returns (Some (errDoNotExists k)) w'
          /\ heap w' = heap w /\ self w' = self w)
  /\ (exists w',
        Flush w = Returns tt w'
        /\ forall (k : string) (v : value) (d now : Z),
             exists w'', Set_ k v d now w' = Returns tt w'').
Proof.
  exact (nil_map_reads_but_panics_on_writes (NewFrom 0 0 [] None) eq_refl eq_refl).
Defined.

(** ** Expiry and the clock *)

Lemma Expired_later (t1 t2 : Z) (item : Item) :
  t1 <= t2 -> Expired t1 item = true -> Expired t2 item = true.
Proof.
  intros Hle. unfold Expired. destruct (Expiration item =? 0); [trivial |].
  rewrite !gtb_true. lia.
Qed.

Lemma stale_later (t1 t2 : Z) (item : Item) :
  t1 <= t2 -> stale t1 item = true -> stale t2 item = true.
Proof.
  intros Hle. unfold stale. rewrite !andb_true_iff, !gtb_true. lia.
Qed.

(** Without a write in between, what has expired stays expired: a key
    that [Get] or [GetWithExpiration] does not find at one time is not
    found at any later time, and the copy [Items] makes at a later time
    holds no entry that the copy made at the earlier time lacks. *)
Theorem expiry_is_permanent :
  forall (key : string) (t1 t2 : Z) (w : world),
    writer (mu (self w)) = false ->
    t1 <= t2 ->
    (forall (v : value) (w1 : world),
        Get key t1 w = Returns (v, false) w1 ->
        Get key t2 w = Returns (VNil, false) w1)
    /\ (forall (v : value) (t : Time) (w1 : world),
          GetWithExpiration key t1 w = Returns (v, t, false) w1 ->
          GetWithExpiration key t2 w = Returns (VNil, ZeroTime, false) w1)
    /\ (exists (l1 l2 : nat) (w1 w2 : world),
          Items t1 w = Returns (Some l1) w1
          /\ Items t2 w = Returns (Some l2) w2
          /\ deref (heap w2) (Some l2) ⊆ deref (heap w1) (Some l1)).
Proof.
  intros key t1 t2 w Hw Hle. split; [| split].
  - intros v w1. rewrite !Get_returns by exact Hw. unfold answer.
    destruct (entries w !! key) as [item |]; [| intros [= _ <-]; reflexivity].
    destruct (Expired t1 item) eqn:E1; [| discriminate].
    rewrite (Expired_later t1 t2 item Hle E1). intros [= _ <-]. reflexivity.
  - intros v t w1. rewrite !GetWithExpiration_returns by exact Hw.
    destruct (entries w !! key) as [item |]; [| intros [= _ _ <-]; reflexivity].
    destruct (stale t1 item) eqn:E1; [| discriminate].
    rewrite (stale_later t1 t2 item Hle E1). intros [= _ _ <-]. reflexivity.
  - eexists _, _, _, _.
    split; [apply Items_returns; exact Hw |].
    split; [apply Items_returns; exact Hw |].
    unfold logged, set_heap. cbn [heap deref].
    rewrite !lookup_app_r by reflexivity. rewrite Nat.sub_diag.
    cbn [lookup list_lookup from_option id].
    apply map_filter_strong_subseteq_ext. intros k item [Hlive Hk].
    split; [| exact Hk]. unfold live in *. cbn [snd] in *.
    destruct (Expired t1 item) eqn:E1; [| reflexivity].
    rewrite (Expired_later t1 t2 item Hle E1) in Hlive. discriminate.
Qed.

Lemma expiry_is_permanent_witness :
  (forall (v : value) (w1 : world),
      Get "a" 6 sample = Returns (v, false) w1 ->
      Get "a" 7 sample = Returns (VNil, false) w1)
  /\ (forall (v : value) (t : Time) (w1 : world),
        GetWithExpiration "a" 6 sample = Returns (v, t, false) w1 ->
        GetWithExpiration "a" 7 sample = Returns (VNil, ZeroTime, false) w1)
  /\ (exists (l1 l2 : nat) (w1 w2 : world),
        Items 6 sample = Returns (Some l1) w1
        /\ Items 7 sample = Returns (Some l2) w2
        /\ deref (heap w2) (Some l2) ⊆ deref (heap w1) (Some l1)).
Proof.
  apply (expiry_is_permanent "a" 6 7 sample); [reflexivity | lia].
Defined.

(** ** [Increment] against [Decrement] *)

Lemma wrapS_small (b x : Z) :
  0 < b -> - 2 ^ (b - 1) <= x <= 2 ^ (b - 1) - 1 -> wrapS b x = x.
Proof.
  intros Hb Hx. unfold wrapS.
  assert (H2 : 2 ^ b = 2 * 2 ^ (b - 1)).
  { rewrite <- Z.pow_succ_r by lia. f_equal. lia. }
  rewrite Z.mod_small by lia. lia.
Qed.

Lemma wrapU_small (b x : Z) : 0 <= x <= 2 ^ b - 1 -> wrapU b x = x.
Proof. intros Hx. unfold wrapU. apply Z.mod_small. lia. Qed.

Lemma wrapS_wrapS_sub (b y z : Z) : wrapS b (wrapS b y - z) = wrapS b (y - z).
Proof.
  unfold wrapS. f_equal.
  replace ((y + 2 ^ (b - 1)) mod 2 ^ b - 2 ^ (b - 1) - z + 2 ^ (b - 1))
    with ((y + 2 ^ (b - 1)) mod 2 ^ b + - z) by lia.
  rewrite Zplus_mod_idemp_l. f_equal. lia.
Qed.

Lemma wrapU_wrapU_sub (b y z : Z) : wrapU b (wrapU b y - z) = wrapU b (y - z).
Proof. unfold wrapU. apply Zminus_mod_idemp_l. Qed.

Lemma wrapS_back (b x n : Z) :
  0 < b -> - 2 ^ (b - 1) <= x <= 2 ^ (b - 1) - 1 ->
  wrapS b (wrapS b (x + wrapS b n) - wrapS b n) = x.
Proof.
  intros Hb Hx. rewrite wrapS_wrapS_sub.
  replace (x + wrapS b n - wrapS b n) with x by lia.
  apply wrapS_small; assumption.
Qed.

Lemma wrapU_back (b x n : Z) :
  0 <= x <= 2 ^ b - 1 ->
  wrapU b (wrapU b (x + wrapU b n) - wrapU b n) = x.
Proof.
  intros Hx. rewrite wrapU_wrapU_sub.
  replace (x + wrapU b n - wrapU b n) with x by lia.
  apply wrapU_small; assumption.
Qed.

Lemma wrapS_wrapS_add (b y z : Z) : wrapS b (wrapS b y + z) = wrapS b (y + z).
Proof.
  unfold wrapS. f_equal.
  replace ((y + 2 ^ (b - 1)) mod 2 ^ b - 2 ^ (b - 1) + z + 2 ^ (b - 1))
    with ((y + 2 ^ (b - 1)) mod 2 ^ b + z) by lia.
  rewrite Zplus_mod_idemp_l. f_equal. lia.
Qed.

Lemma wrapU_wrapU_add (b y z : Z) : wrapU b (wrapU b y + z) = wrapU b (y + z).
Proof. unfold wrapU. apply Zplus_mod_idemp_l. Qed.

Lemma UintSize_pos (a : GOARCH) : 0 < UintSize a.
Proof. destruct a; reflexivity. Qed.

(** On a value Go can hold, the type switch of [Decrement] undoes that of
    [Increment], and the other way round. *)
Lemma increment_decrement (a : GOARCH) (v : value) (n : Z) :
  representable a v ->
  (exists v', increment a v n = Some v' /\ decrement a v' n = Some v)
  /\ (exists v', decrement a v n = Some v' /\ increment a v' n = Some v).
Proof.
  intros (k & x & Hk & Hx & Hr). pose proof (UintSize_pos a) as Hu.
  destruct v; cbn [kindOf integer] in Hk, Hx; try discriminate;
    injection Hk as <-; injection Hx as <-;
    unfold lo, hi in Hr; cbn [signed bits] in Hr;
    (split; eexists; (split; [reflexivity |]));
    cbn [increment decrement]; f_equal; f_equal;
    rewrite ?wrapS_wrapS_sub, ?wrapS_wrapS_add, ?wrapU_wrapU_sub, ?wrapU_wrapU_add;
    match goal with
    | |- wrapS ?b ?e = ?y => replace e with y by lia; apply wrapS_small; lia
    | |- wrapU ?b ?e = ?y => replace e with y by lia; apply wrapU_small; lia
    end.
Qed.

(** [Increment] by [n] and then [Decrement] by [n] of a key whose entry
    holds an integer and is not expired at either time both return the nil
    error and leave the entries of the store as they were, whatever the
    overflow in between; so do [Decrement] and then [Increment]. *)
Theorem Increment_undone_by_Decrement :
  forall (a : GOARCH) (key : string) (n t1 t2 : Z) (item : Item) (w : world),
    mu (self w) = unlocked ->
    entries w !! key = Some item ->
    Expired t1 item = false ->
    Expired t2 item = false ->
    representable a (Object item) ->
    (exists w1 w2,
        Increment a key n t1 w = Returns None w1
        /\ Decrement a key n t2 w1 = Returns None w2
        /\ entries w2 = entries w /\ self w2 = self w)
    /\ (exists w1 w2,
          Decrement a key n t1 w = Returns None w1
          /\ Increment a key n t2 w1 = Returns None w2
          /\ entries w2 = entries w /\ self w2 = self w).
Proof.
  intros a key n t1 t2 item w Hmu Hk H1 H2 Hrep.
  destruct (increment_decrement a (Object item) n Hrep)
    as [(vi & Hi & Hid) (vd & Hd & Hdi)].
  assert (Hback : forall v (m : gmap string Item),
             m !! key = Some item ->
             <[key := mkItem (Object item) (Expiration item)]>
               (<[key := mkItem v (Expiration item)]> m) = m).
  { intros v m Hm. rewrite insert_insert_eq. apply insert_id.
    rewrite Hm. destruct item; reflexivity. }
  split.
  - destruct (Increment_returns a key n t1 item vi w Hmu Hk H1 Hi)
      as (w1 & HI & He1 & Hs1 & _).
    destruct (Decrement_returns a key n t2 (mkItem vi (Expiration item)) (Object item) w1)
      as (w2 & HD & He2 & Hs2 & _);
      [rewrite Hs1; exact Hmu | rewrite He1; apply lookup_insert_eq
      | exact H2 | exact Hid |].
    exists w1, w2. split; [exact HI |]. split; [exact HD |].
    split; [| congruence].
    rewrite He2, He1. apply Hback. exact Hk.
  - destruct (Decrement_returns a key n t1 item vd w Hmu Hk H1 Hd)
      as (w1 & HD & He1 & Hs1 & _).
    destruct (Increment_returns a key n t2 (mkItem vd (Expiration item)) (Object item) w1)
      as (w2 & HI & He2 & Hs2 & _);
      [rewrite Hs1; exact Hmu | rewrite He1; apply lookup_insert_eq
      | exact H2 | exact Hdi |].
    exists w1, w2. split; [exact HD |]. split; [exact HI |].
    split; [| congruence].
    rewrite He2, He1. apply Hback. exact Hk.
Qed.

Lemma Increment_undone_by_Decrement_witness :
  (exists w1 w2,
      Increment Arch64 "n" 200 3 counters = Returns None w1
      /\ Decrement Arch64 "n" 200 4 w1 = Returns None w2
      /\ entries w2 = entries counters /\ self w2 = self counters)
  /\ (exists w1 w2,
        Decrement Arch64 "n" 200 3 counters = Returns None w1
        /\ Increment Arch64 "n" 200 4 w1 = Returns None w2
        /\ entries w2 = entries counters /\ self w2 = self counters).
Proof.
  apply (Increment_undone_by_Decrement Arch64 "n" 200 3 4 (mkItem (VInt8 127) 0)
           counters); try reflexivity.
  exists KInt8, 127. split; [reflexivity |]. split; [reflexivity |].
  unfold lo, hi. cbn [signed bits]. lia.
Defined.

Lemma wrapS_divide (b z : Z) : 0 < b -> (2 ^ b | wrapS b z - z).
Proof.
  intros Hb. unfold wrapS.
  assert (Hp : 0 < 2 ^ b) by (apply Z.pow_pos_nonneg; lia).
  exists (- ((z + 2 ^ (b - 1)) / 2 ^ b)).
  pose proof (Z.div_mod (z + 2 ^ (b - 1)) (2 ^ b)). lia.
Qed.

Lemma wrapU_divide (b z : Z) : 0 < b -> (2 ^ b | wrapU b z - z).
Proof.
  intros Hb. unfold wrapU.
  assert (Hp : 0 < 2 ^ b) by (apply Z.pow_pos_nonneg; lia).
  exists (- (z / 2 ^ b)). pose proof (Z.div_mod z (2 ^ b)). lia.
Qed.

Lemma wrapS_same (b u v : Z) : (2 ^ b | u - v) -> wrapS b u = wrapS b v.
Proof.
  intros [q Hq]. unfold wrapS. f_equal.
  replace (u + 2 ^ (b - 1)) with (v + 2 ^ (b - 1) + q * 2 ^ b) by lia.
  apply Z_mod_plus_full.
Qed.

Lemma wrapU_same (b u v : Z) : (2 ^ b | u - v) -> wrapU b u = wrapU b v.
Proof.
  intros [q Hq]. unfold wrapU.
  replace u with (v + q * 2 ^ b) by lia. apply Z_mod_plus_full.
Qed.

Lemma pow2_divide_64 (b : Z) : 0 < b <= 64 -> (2 ^ b | 2 ^ 64).
Proof.
  intros Hb. exists (2 ^ (64 - b)). rewrite <- Z.pow_add_r by lia.
  f_equal. lia.
Qed.

(** Minus [n] as an [int64], converted to a width of at most 64 bits, is
    the negation of [n] converted to that width, up to a multiple of
    [2 ^ b]. *)
Lemma negation_divide (b n c c' : Z) :
  0 < b <= 64 ->
  (2 ^ b | c - wrapS 64 (- n)) -> (2 ^ b | c' - n) -> (2 ^ b | c + c').
Proof.
  intros Hb H1 H2.
  replace (c + c') with ((c - wrapS 64 (- n)) + ((wrapS 64 (- n) - - n) + (c' - n)))
    by lia.
  apply Z.divide_add_r; [exact H1 |]. apply Z.divide_add_r; [| exact H2].
  apply (Z.divide_trans _ (2 ^ 64)); [apply pow2_divide_64; exact Hb |].
  apply wrapS_divide. lia.
Qed.

Lemma wrapS_negation (b x n : Z) :
  0 < b <= 64 ->
  wrapS b (x - wrapS b n) = wrapS b (x + wrapS b (wrapS 64 (- n))).
Proof.
  intros Hb. symmetry. apply wrapS_same.
  replace (x + wrapS b (wrapS 64 (- n)) - (x - wrapS b n))
    with (wrapS b (wrapS 64 (- n)) + wrapS b n) by lia.
  apply (negation_divide b n); [exact Hb | |]; apply wrapS_divide; lia.
Qed.

Lemma wrapU_negation (b x n : Z) :
  0 < b <= 64 ->
  wrapU b (x - wrapU b n) = wrapU b (x + wrapU b (wrapS 64 (- n))).
Proof.
  intros Hb. symmetry. apply wrapU_same.
  replace (x + wrapU b (wrapS 64 (- n)) - (x - wrapU b n))
    with (wrapU b (wrapS 64 (- n)) + wrapU b n) by lia.
  apply (negation_divide b n); [exact Hb | |]; apply wrapU_divide; lia.
Qed.

Lemma UintSize_le (a : GOARCH) : 0 < UintSize a <= 64.
Proof. destruct a; cbn; lia. Qed.

(** On an integer, the type switch of [Decrement] with [n] is that of
    [Increment] with [-n] (as an [int64], so wrapped to 64 bits). *)
Lemma decrement_increment (a : GOARCH) (v : value) (n x : Z) :
  integer v = Some x ->
  decrement a v n = increment a v (wrapS 64 (- n)).
Proof.
  intros Hx. pose proof (UintSize_le a) as Hu.
  destruct v; cbn [integer] in Hx; try discriminate;
    cbn [increment decrement]; f_equal; f_equal;
    try (apply wrapS_negation; lia); try (apply wrapU_negation; lia).
  rewrite <- wrapS_add_wrapS. rewrite <- (wrapS_sub_wrapS 64 _ n).
  apply wrapS_negation. lia.
Qed.

(** [Decrement] by [n] of a key whose entry holds an integer and is not
    expired is [Increment] by [-n]: the same outcome and the same store,
    whatever the state of the lock.  Not so for a floating value: on
    negative zero, [Decrement] by 0 leaves negative zero and [Increment]
    by 0 gives positive zero. *)
Theorem Decrement_is_Increment_of_the_negation :
  (forall (a : GOARCH) (key : string) (n now x : Z) (item : Item) (w : world),
      entries w !! key = Some item ->
      Expired now item = false ->
      integer (Object item) = Some x ->
      Decrement a key n now w = Increment a key (wrapS 64 (- n)) now w)
  /\ (forall a : GOARCH,
        decrement a (VFloat64 (S754_zero true)) 0 = Some (VFloat64 (S754_zero true))
        /\ increment a (VFloat64 (S754_zero true)) (wrapS 64 (- 0))
           = Some (VFloat64 (S754_zero false))).
Proof.
  split; [| intros a; split; reflexivity].
  intros a key n now x item w Hk He Hx.
  pose proof (decrement_increment a (Object item) n x Hx) as Hv.
  destruct w as [h [dE i m0 o] cs]. unfold Decrement, Increment. go.
  destruct (writer m0 || negb (readers m0 =? 0)%nat); [reflexivity |]. go.
  rewrite Hk, He, Hv.
  destruct (increment a (Object item) (wrapS 64 (- n))) as [v' |] eqn:Hi;
    [reflexivity |].
  exfalso. apply increment_None in Hi.
  destruct (Object item); cbn in Hx, Hi; discriminate.
Qed.

Lemma Decrement_is_Increment_of_the_negation_witness :
  Decrement Arch64 "n" 3 1 counters = Increment Arch64 "n" (wrapS 64 (- 3)) 1 counters.
Proof.
  apply (proj1 Decrement_is_Increment_of_the_negation Arch64 "n" 3 1 127
           (mkItem (VInt8 127) 0) counters); reflexivity.
Defined.

(** ** [SetDefault] and the configured default *)

(** On a store made by [NewFrom] with the default [d], [SetDefault] is
    [Set] with [d], or with [NoExpiration] where [d] is zero; the entry it
    stores expires at the instant [d] after [now] for a positive [d], and
    never for any other [d]. *)
Theorem SetDefault_uses_the_configured_default :
  forall (d interval : Z) (h : list (gmap string Item)) (l : nat)
         (m : gmap string Item) (key : string) (val : value) (now : Z),
    h !! l = Some m ->
    let w := NewFrom d interval h (Some l) in
    SetDefault key val now w
    = Set_ key val (if d =? 0 then NoExpiration else d) now w
    /\ exists w',
         SetDefault key val now w = Returns tt w'
         /\ entries w' !! key
            = Some (mkItem val (if d >? 0 then UnixNanoAfter now d else 0))
         /\ (d <= 0 ->
             forall t, Get key t w'
                       = Returns (val, true) (logged [RAcquire; RRelease] w')).
Proof.
  intros d interval h l m key val now Hl w.
  assert (Hal : allocated w) by (exists l, m; split; [reflexivity | exact Hl]).
  assert (Hexp : expiration (self w) DefaultExpiration now
                 = if d >? 0 then UnixNanoAfter now d else 0).
  { subst w. unfold expiration, NewFrom, newCache, DefaultExpiration.
    cbn [self defaultExpiration Z.eqb].
    destruct (Z.eqb_spec d 0) as [-> | Hne]; reflexivity. }
  split.
  - subst w. unfold SetDefault, Set_, NewFrom, newCache, DefaultExpiration,
      NoExpiration. go.
    destruct (Z.eqb_spec d 0) as [-> | Hne]; [reflexivity |].
    cbn [Z.eqb]. destruct (Z.eqb_spec d 0) as [E | _]; [contradiction | reflexivity].
  - unfold SetDefault.
    destruct (Set_returns key val DefaultExpiration now w eq_refl Hal)
      as (w' & HS & He & Hs & _).
    rewrite Hexp in He.
    exists w'. split; [exact HS |].
    split; [rewrite He; apply lookup_insert_eq |].
    intros Hd t. rewrite Get_returns by (rewrite Hs; reflexivity).
    rewrite He, lookup_insert_eq.
    destruct (d >? 0) eqn:G; [apply gtb_true in G; lia | reflexivity].
Qed.

Lemma SetDefault_uses_the_configured_default_witness :
  let w := NewFrom 5 0 [∅] (Some 0%nat) in
  SetDefault "k" (VInt 1) 100 w
  = Set_ "k" (VInt 1) (if 5 =? 0 then NoExpiration else 5) 100 w
  /\ exists w',
       SetDefault "k" (VInt 1) 100 w = Returns tt w'
       /\ entries w' !! "k"
          = Some (mkItem (VInt 1) (if 5 >? 0 then UnixNanoAfter 100 5 else 0))
       /\ (5 <= 0 ->
           forall t, Get "k" t w'
                     = Returns (VInt 1, true) (logged [RAcquire; RRelease] w')).
Proof.
  exact (SetDefault_uses_the_configured_default 5 0 [∅] 0%nat ∅ "k" (VInt 1) 100
           eq_refl).
Defined.

(** ** The janitor *)



(** ** The lock, across the operations *)

Lemma allocated_logged (es : list event) (w : world) :
  allocated w -> allocated (logged es w).
Proof. intros H. exact H. Qed.

















(** ** [Delete] and then [Add] or [Replace] *)



(** ** [Items] against [Get] *)

(** [Items] and [Get] agree on what is in the store at a given time: [Get]
    of a key returns the value the copy made by [Items] at that time holds
    for it, with [true], and nil with [false] for a key the copy lacks. *)
Theorem Items_agrees_with_Get :
  forall (key : string) (now : Z) (w : world),
    writer (mu (self w)) = false ->
    exists (l' : nat) (w' : world),
      Items now w = Returns (Some l') w'
      /\ Get key now w
         = Returns (match deref (heap w') (Some l') !! key with
                    | Some item => (Object item, true)
                    | None => (VNil, false)
                    end) (logged [RAcquire; RRelease] w).
Proof.
  intros key now w Hw. eexists _, _.
  split; [apply Items_returns; exact Hw |].
  rewrite Get_returns by exact Hw. f_equal.
  unfold logged, set_heap. cbn [heap deref].
  rewrite lookup_app_r by reflexivity. rewrite Nat.sub_diag.
  cbn [lookup list_lookup from_option id]. unfold answer.
  destruct (entries w !! key) as [item |] eqn:Hk.
  - destruct (Expired now item) eqn:He.
    + rewrite (proj2 (map_lookup_filter_None _ _ _)); [reflexivity |].
      right. intros x Hx. unfold live. cbn [snd].
      rewrite Hk in Hx. injection Hx as <-. rewrite He. discriminate.
    + rewrite (proj2 (map_lookup_filter_Some _ _ _ item)); [reflexivity |].
      split; [exact Hk | exact He].
  - rewrite (proj2 (map_lookup_filter_None _ _ _)); [reflexivity |].
    left. exact Hk.
Qed.

Lemma Items_agrees_with_Get_witness :
  exists (l' : nat) (w' : world),
    Items 3 sample = Returns (Some l') w'
    /\ Get "a" 3 sample
       = Returns (match deref (heap w') (Some l') !! "a" with
                  | Some item => (Object item, true)
                  | None => (VNil, false)
                  end) (logged [RAcquire; RRelease] sample).
Proof.
  exact (Items_agrees_with_Get "a" 3 sample eq_refl).
Defined.
